(** * FrameDataPair and FrameSequence (image/src/FrameSequence.h)

    A shallow embedding of the two classes of FrameSequence.h and the
    lock/unlock discipline of FrameDataPair.

    Objects of class FrameDataPair live in a store indexed by their
    address, so that [&aOther != this] and the effect of a move on its
    source can be expressed.  Every call a method makes on an imgFrame is
    appended to a log together with the address of the FrameDataPair that
    made it.  Reference counting lives in nsRefPtr, outside the header; an
    nsRefPtr<imgFrame> is modelled by the pointer it holds. *)

From stdpp Require Import base option list gmap.
From Stdlib Require Import NArith Lia.

(** ** Data model *)

(** A non-null [imgFrame*]. *)
Abbreviation addr := positive.
(** The address of a FrameDataPair object. *)
Abbreviation loc := positive.

(** Modelled from the spec: the frame interface of section 6 (imgFrame.h is
    not among the sources).  A frame answers [lock() -> success|failure],
    [is_paletted()], [palette_data()] and [image_data()]; the record holds
    the answers the frame gives at the moment it is asked.  Pointers are
    addresses, 0 is nullptr. *)
Record imgFrame : Type := ImgFrame {
  lockResult : bool;
  isPaletted : bool;
  paletteData : N;
  imageData : N
}.

(** The calls FrameDataPair makes on a frame. *)
Inductive call : Type :=
| LockImageData (f : addr) (succeeded : bool)
| UnlockImageData (f : addr)
| GetIsPaletted (f : addr)
| GetPaletteData (f : addr)
| GetImageData (f : addr).

(** [nsRefPtr<imgFrame> mFrame; uint8_t* mFrameData;] *)
Record FrameDataPair : Type := Pair {
  mFrame : option addr;
  mFrameData : N
}.

(** The frames with their current answers, the live FrameDataPair objects
    by address, and the calls made on frames so far, oldest first, each
    with the address of the object that made it. *)
Record world : Type := World {
  frames : addr → imgFrame;
  slots : gmap loc FrameDataPair;
  log : list (loc * call)
}.

Definition init_world (fr : addr → imgFrame) : world := World fr ∅ [].

(** ** The monad of methods: state and fatal errors *)

Inductive error : Type :=
| AssertionFailure   (* MOZ_ASSERT *)
| NullDereference    (* mFrame-> on an empty nsRefPtr *)
| DeadObject         (* a method on an object that does not exist *)
| ObjectInUse        (* a constructor at the address of a live object *)
| Abort.             (* out-of-range index of a FrameSequence *)

Inductive result (A : Type) : Type :=
| Ok (a : A)
| Err (e : error).
Arguments Ok {A} a.
Arguments Err {A} e.

Definition M (A : Type) : Type := world → result (A * world).

Definition ret {A} (a : A) : M A := λ w, Ok (a, w).

Definition bind {A B} (m : M A) (k : A → M B) : M B :=
  λ w, match m w with
       | Ok (a, w') => k a w'
       | Err e => Err e
       end.

Definition fail {A} (e : error) : M A := λ _, Err e.

Declare Scope method_scope.
Delimit Scope method_scope with method.
Notation "'let*' x ':=' m 'in' k" := (bind m (λ x, k))
  (at level 10, x pattern, m at level 100, k at level 200) : method_scope.
Notation "m1 '>>' m2" := (bind m1 (λ _, m2))
  (at level 100, m2 at level 200, right associativity) : method_scope.
Local Open Scope method_scope.

(** [MOZ_ASSERT(b)], as in a debug build: a false condition is fatal. *)
Definition MOZ_ASSERT (b : bool) : M unit :=
  if b then ret () else fail AssertionFailure.

(** *** Access to the object at an address *)

(** A reference must denote a live object. *)
Definition live (x : loc) : M unit :=
  λ w, match slots w !! x with
       | Some _ => Ok ((), w)
       | None => Err DeadObject
       end.

Definition get_slot (this : loc) : M FrameDataPair :=
  λ w, match slots w !! this with
       | Some p => Ok (p, w)
       | None => Err DeadObject
       end.

Definition put_slot (this : loc) (p : FrameDataPair) : M unit :=
  λ w, Ok ((), World (frames w) (<[this := p]> (slots w)) (log w)).

(** Placement of a new object: the address must be free. *)
Definition construct (this : loc) (p : FrameDataPair) : M unit :=
  λ w, match slots w !! this with
       | Some _ => Err ObjectInUse
       | None => Ok ((), World (frames w) (<[this := p]> (slots w)) (log w))
       end.

(** The end of an object's storage. *)
Definition release (this : loc) : M unit :=
  λ w, Ok ((), World (frames w) (delete this (slots w)) (log w)).

Definition set_mFrame (this : loc) (f : option addr) : M unit :=
  let* p := get_slot this in put_slot this (Pair f (mFrameData p)).

Definition set_mFrameData (this : loc) (d : N) : M unit :=
  let* p := get_slot this in put_slot this (Pair (mFrame p) d).

(** [Move(x.mFrame)] and [x.mFrame.forget()]: the pointer leaves the
    nsRefPtr, which becomes null. *)
Definition take_mFrame (x : loc) : M (option addr) :=
  let* p := get_slot x in
  set_mFrame x None >> ret (mFrame p).

(** [mFrame->]: the frame behind the nsRefPtr. *)
Definition deref (f : option addr) : M addr :=
  match f with
  | Some a => ret a
  | None => fail NullDereference
  end.

(** [if (p)] on a pointer. *)
Definition nonnull (p : N) : bool := negb (p =? 0)%N.

(** *** Calls on a frame, logged with their caller *)

Definition emit (this : loc) (c : call) : M unit :=
  λ w, Ok ((), World (frames w) (slots w) (log w ++ [(this, c)])).

Definition frame_LockImageData (this : loc) (f : addr) : M bool :=
  λ w, let ok := lockResult (frames w f) in
       Ok (ok, World (frames w) (slots w) (log w ++ [(this, LockImageData f ok)])).

Definition frame_UnlockImageData (this : loc) (f : addr) : M unit :=
  emit this (UnlockImageData f).

Definition frame_GetIsPaletted (this : loc) (f : addr) : M bool :=
  λ w, Ok (isPaletted (frames w f),
           World (frames w) (slots w) (log w ++ [(this, GetIsPaletted f)])).

Definition frame_GetPaletteData (this : loc) (f : addr) : M N :=
  λ w, Ok (paletteData (frames w f),
           World (frames w) (slots w) (log w ++ [(this, GetPaletteData f)])).

Definition frame_GetImageData (this : loc) (f : addr) : M N :=
  λ w, Ok (imageData (frames w f),
           World (frames w) (slots w) (log w ++ [(this, GetImageData f)])).

(** ** class FrameDataPair *)

(** [explicit FrameDataPair(imgFrame* frame)] *)
Definition FrameDataPair_new (this : loc) (frame : option addr) : M unit :=
  construct this (Pair frame 0).

(** [FrameDataPair()] *)
Definition FrameDataPair_default (this : loc) : M unit :=
  construct this (Pair None 0).

(** [FrameDataPair(const FrameDataPair& aOther)] *)
Definition FrameDataPair_copy (this aOther : loc) : M unit :=
  let* o := get_slot aOther in
  construct this (Pair (mFrame o) 0).

(** [FrameDataPair(FrameDataPair&& aOther)] *)
Definition FrameDataPair_move (this aOther : loc) : M unit :=
  let* f := take_mFrame aOther in
  let* o := get_slot aOther in
  construct this (Pair f (mFrameData o)) >>
  set_mFrameData aOther 0.

(** [~FrameDataPair()] *)
Definition FrameDataPair_dtor (this : loc) : M unit :=
  let* p := get_slot this in
  (if nonnull (mFrameData p)
   then let* f := deref (mFrame p) in frame_UnlockImageData this f
   else ret ()) >>
  release this.

(** [operator=(const FrameDataPair& aOther)] *)
Definition assign_copy (this aOther : loc) : M unit :=
  live this >>
  live aOther >>
  if bool_decide (aOther ≠ this)
  then let* o := get_slot aOther in
       set_mFrame this (mFrame o) >>
       set_mFrameData this 0
  else ret ().

(** [operator=(FrameDataPair&& aOther)] *)
Definition assign_move (this aOther : loc) : M unit :=
  live this >>
  live aOther >>
  MOZ_ASSERT (bool_decide (aOther ≠ this)) >>
  let* f := take_mFrame aOther in
  set_mFrame this f >>
  let* o := get_slot aOther in
  set_mFrameData this (mFrameData o) >>
  set_mFrameData aOther 0.

(** [void LockAndGetData()] *)
Definition LockAndGetData (this : loc) : M unit :=
  let* p := get_slot this in
  match mFrame p with
  | Some f =>
      let* ok := frame_LockImageData this f in
      if ok then
        let* paletted := frame_GetIsPaletted this f in
        if paletted then
          let* d := frame_GetPaletteData this f in
          set_mFrameData this d
        else
          let* d := frame_GetImageData this f in
          set_mFrameData this d
      else ret ()
  | None => ret ()
  end.

(** [already_AddRefed<imgFrame> Forget()] *)
Definition Forget (this : loc) : M (option addr) :=
  let* p := get_slot this in
  (if nonnull (mFrameData p)
   then let* f := deref (mFrame p) in frame_UnlockImageData this f
   else ret ()) >>
  set_mFrameData this 0 >>
  take_mFrame this.

(** [bool HasFrameData() const] *)
Definition HasFrameData (this : loc) : M bool :=
  let* p := get_slot this in
  (if nonnull (mFrameData p)
   then MOZ_ASSERT (bool_decide (is_Some (mFrame p)))
   else ret ()) >>
  ret (nonnull (mFrameData p)).

(** [uint8_t* GetFrameData() const] *)
Definition GetFrameData (this : loc) : M N :=
  let* p := get_slot this in ret (mFrameData p).

(** [already_AddRefed<imgFrame> GetFrame() const] *)
Definition GetFrame (this : loc) : M (option addr) :=
  let* p := get_slot this in ret (mFrame p).

(** [void SetFrame(imgFrame* frame)] *)
Definition SetFrame (this : loc) (frame : option addr) : M unit :=
  let* p := get_slot this in
  (if nonnull (mFrameData p)
   then let* f := deref (mFrame p) in frame_UnlockImageData this f
   else ret ()) >>
  set_mFrame this frame >>
  set_mFrameData this 0.

(** [imgFrame* operator->() const] *)
Definition operator_arrow (this : loc) : M (option addr) :=
  let* p := get_slot this in ret (mFrame p).

(** [bool operator==(imgFrame* other) const] *)
Definition operator_eq (this : loc) (other : option addr) : M bool :=
  let* p := get_slot this in ret (bool_decide (mFrame p = other)).

(** [operator bool() const] *)
Definition operator_bool (this : loc) : M bool :=
  let* p := get_slot this in ret (bool_decide (mFrame p ≠ None)).

(** ** Programs over slots

    A client of the class performs a sequence of operations on the objects
    of the store; between two of them the frames may change the answers
    they give ([OEnv]). *)

Inductive op : Type :=
| ONew (this : loc) (frame : option addr)
| ODefault (this : loc)
| OCopy (this aOther : loc)
| OMove (this aOther : loc)
| ODestroy (this : loc)
| OAssignCopy (this aOther : loc)
| OAssignMove (this aOther : loc)
| OLockAndGetData (this : loc)
| OForget (this : loc)
| OSetFrame (this : loc) (frame : option addr)
| OEnv (f : addr) (fr : imgFrame).

Definition set_frame_answers (f : addr) (fr : imgFrame) : M unit :=
  λ w, Ok ((), World (λ g, if bool_decide (g = f) then fr else frames w g)
                     (slots w) (log w)).

Definition exec (o : op) : M unit :=
  match o with
  | ONew this frame => FrameDataPair_new this frame
  | ODefault this => FrameDataPair_default this
  | OCopy this aOther => FrameDataPair_copy this aOther
  | OMove this aOther => FrameDataPair_move this aOther
  | ODestroy this => FrameDataPair_dtor this
  | OAssignCopy this aOther => assign_copy this aOther
  | OAssignMove this aOther => assign_move this aOther
  | OLockAndGetData this => LockAndGetData this
  | OForget this => let* _ := Forget this in ret ()
  | OSetFrame this frame => SetFrame this frame
  | OEnv f fr => set_frame_answers f fr
  end.

Definition step (o : op) (w : world) : result world :=
  match exec o w with
  | Ok (_, w') => Ok w'
  | Err e => Err e
  end.

Fixpoint run (prog : list op) (w : world) : result world :=
  match prog with
  | [] => Ok w
  | o :: prog' =>
      match step o w with
      | Ok w' => run prog' w'
      | Err e => Err e
      end
  end.

(** *** Accounting on the log *)

Definition is_lock_of (f : addr) (c : call) : bool :=
  match c with
  | LockImageData g true => bool_decide (g = f)
  | _ => false
  end.

Definition is_unlock_of (f : addr) (c : call) : bool :=
  match c with
  | UnlockImageData g => bool_decide (g = f)
  | _ => false
  end.

Definition is_lock (c : call) : bool :=
  match c with LockImageData _ true => true | _ => false end.

Definition is_unlock (c : call) : bool :=
  match c with UnlockImageData _ => true | _ => false end.

Definition count {A} (P : A → bool) (l : list A) : nat :=
  length (List.filter P l).

(** Successful locks and unlocks the object at [s] issued. *)
Definition locks_by (s : loc) (l : list (loc * call)) : nat :=
  count (λ e, bool_decide (e.1 = s) && is_lock e.2) l.

Definition unlocks_by (s : loc) (l : list (loc * call)) : nat :=
  count (λ e, bool_decide (e.1 = s) && is_unlock e.2) l.

(** Successful locks and unlocks frame [f] received. *)
Definition locks_of (f : addr) (l : list (loc * call)) : nat :=
  count (λ e, is_lock_of f e.2) l.

Definition unlocks_of (f : addr) (l : list (loc * call)) : nat :=
  count (λ e, is_unlock_of f e.2) l.

(** Outstanding locks of frame [f]: locks not yet matched by an unlock. *)
Definition outstanding (f : addr) (l : list (loc * call)) : Z :=
  (Z.of_nat (locks_of f l) - Z.of_nat (unlocks_of f l))%Z.

(** The object is in state "data view active". *)
Definition active (p : FrameDataPair) : bool := nonnull (mFrameData p).

(** [data_view] active implies [handle] non-empty. *)
Definition slot_ok (p : FrameDataPair) : Prop :=
  mFrameData p ≠ 0%N → is_Some (mFrame p).

Definition store_ok (w : world) : Prop :=
  ∀ s p, slots w !! s = Some p → slot_ok p.

Definition reachable (w : world) : Prop :=
  ∃ fr prog, run prog (init_world fr) = Ok w.

(** The pointer a frame hands out after a successful lock, and the call
    that fetches it. *)
Definition selected_data (fr : imgFrame) : N :=
  if isPaletted fr then paletteData fr else imageData fr.

Definition selected_call (f : addr) (fr : imgFrame) : call :=
  if isPaletted fr then GetPaletteData f else GetImageData f.

(** *** Moves of an active view

    A move of an object whose view is active hands the owed unlock to the
    destination.  [transfers] lists these moves, source first, reading the
    store before each operation of the program. *)

Definition transfer_of (o : op) (w : world) : list (loc * loc) :=
  match o with
  | OMove this aOther | OAssignMove this aOther =>
      match slots w !! aOther with
      | Some p => if active p then [(aOther, this)] else []
      | None => []
      end
  | _ => []
  end.

Fixpoint transfers (prog : list op) (w : world) : list (loc * loc) :=
  match prog with
  | [] => []
  | o :: prog' =>
      transfer_of o w ++
      match step o w with
      | Ok w' => transfers prog' w'
      | Err _ => []
      end
  end.

Definition moved_out (s : loc) (tr : list (loc * loc)) : nat :=
  count (λ e, bool_decide (e.1 = s)) tr.

Definition moved_in (s : loc) (tr : list (loc * loc)) : nat :=
  count (λ e, bool_decide (e.2 = s)) tr.

(** The unlock the object at [s] still owes. *)
Definition owes (m : gmap loc FrameDataPair) (s : loc) : nat :=
  match m !! s with
  | Some p => if active p then 1 else 0
  | None => 0
  end.

(** The calls of [if (mFrameData) { mFrame->UnlockImageData(); }]. *)
Definition unlock_calls (this : loc) (p : FrameDataPair)
    (calls : list (loc * call)) : Prop :=
  (active p = false ∧ calls = [])
  ∨ (∃ f, active p = true ∧ mFrame p = Some f
          ∧ calls = [(this, UnlockImageData f)]).

(** The ledger of every object: the locks it took and the views moved into
    it are the unlocks it issued, the views moved out of it and the unlock
    it still owes. *)
Definition balance (w : world) (tr : list (loc * loc)) : Prop :=
  ∀ s, locks_by s (log w) + moved_in s tr
       = unlocks_by s (log w) + moved_out s tr + owes (slots w) s.

(** The object holds an active view of frame [f]. *)
Definition holds (f : addr) (p : FrameDataPair) : bool :=
  bool_decide (mFrame p = Some f) && active p.

(** The number of live objects that hold an active view of frame [f]. *)
Definition holders (f : addr) (m : gmap loc FrameDataPair) : nat :=
  size (filter (λ kv, holds f kv.2 = true) m).

Definition held (f : addr) (o : option FrameDataPair) : nat :=
  match o with
  | Some p => if holds f p then 1 else 0
  | None => 0
  end.

(** The ledger of every frame: its successful locks are its unlocks and
    the active views on it. *)
Definition frame_balance (w : world) : Prop :=
  ∀ f, locks_of f (log w) = unlocks_of f (log w) + holders f (slots w).

(** *** Disciplined use

    The uses of the class under which no lock is lost: LockAndGetData is
    called on an object whose view is inactive and stores a non-null
    pointer when the lock succeeds, and an assignment from another object
    targets an object whose view is inactive. *)

Definition inactive_at (w : world) (s : loc) : bool :=
  match slots w !! s with
  | Some p => negb (active p)
  | None => true
  end.

Definition stores_nonnull (w : world) (s : loc) : bool :=
  match slots w !! s with
  | Some p =>
      match mFrame p with
      | Some f => implb (lockResult (frames w f))
                        (nonnull (selected_data (frames w f)))
      | None => true
      end
  | None => true
  end.

Definition disciplined_op (o : op) (w : world) : bool :=
  match o with
  | OLockAndGetData this => inactive_at w this && stores_nonnull w this
  | OAssignCopy this aOther => bool_decide (aOther = this) || inactive_at w this
  | OAssignMove this _ => inactive_at w this
  | _ => true
  end.

Fixpoint disciplined (prog : list op) (w : world) : bool :=
  match prog with
  | [] => true
  | o :: prog' =>
      disciplined_op o w &&
      match step o w with
      | Ok w' => disciplined prog' w'
      | Err _ => true
      end
  end.

(** ** class FrameSequence *)

(** [nsTArray<FrameDataPair> mFrames]: the elements of the array are
    objects of the store, listed by position. *)
Record FrameSequence : Type := Sequence {
  mFrames : list loc
}.

(** The place of a new array element: an address no live object has. *)
Definition fresh_loc (w : world) : loc := fresh (dom (slots w)).

(** [uint32_t GetNumFrames() const] *)
Definition GetNumFrames (seq : FrameSequence) : nat := length (mFrames seq).

(** Modelled from the spec: the body of FrameSequence::GetFrame is not in
    the header.  "Read-only reference to the slot at index; precondition
    index < size()"; an index out of range is fatal. *)
Definition FrameSequence_GetFrame (aIndex : nat) (seq : FrameSequence)
  : M FrameDataPair :=
  match mFrames seq !! aIndex with
  | Some l => get_slot l
  | None => fail Abort
  end.

(** Modelled from the spec: the body of FrameSequence::InsertFrame is not in
    the header.  "Inserts a new slot bound to frame at index, shifting later
    slots up; index must satisfy index <= size()"; an index out of range is
    fatal. *)
Definition InsertFrame (framenum : nat) (aFrame : option addr)
    (seq : FrameSequence) : M FrameSequence :=
  if bool_decide (framenum ≤ GetNumFrames seq) then
    λ w, let l := fresh_loc w in
         (FrameDataPair_new l aFrame >>
          ret (Sequence (take framenum (mFrames seq) ++
                         l :: drop framenum (mFrames seq)))) w
  else fail Abort.

(** Modelled from the spec: the body of FrameSequence::RemoveFrame is not in
    the header.  "Destroys the slot at index (releasing any active view
    lock), shifts later slots down; precondition index < size()"; an index
    out of range is fatal. *)
Definition RemoveFrame (framenum : nat) (seq : FrameSequence)
  : M FrameSequence :=
  match mFrames seq !! framenum with
  | Some l =>
      FrameDataPair_dtor l >>
      ret (Sequence (take framenum (mFrames seq) ++
                     drop (S framenum) (mFrames seq)))
  | None => fail Abort
  end.

(** The frame handle at each position; [None] where the element is not a
    live object. *)
Definition handle_at (w : world) (seq : FrameSequence) (i : nat)
  : option (option addr) :=
  l ← mFrames seq !! i; mFrame <$> slots w !! l.

(** *** Safety of the calls

    Whatever the use of the class, a frame never receives more unlocks than
    successful locks, and each active view on it is covered by a lock of
    its own. *)
Definition frame_safe (w : world) : Prop :=
  ∀ f, unlocks_of f (log w) + holders f (slots w) ≤ locks_of f (log w).

(** The objects an operation may write: [this] and, for a move, its
    source. *)
Definition touched (o : op) : list loc :=
  match o with
  | ONew this _ | ODefault this | OCopy this _ | ODestroy this
  | OAssignCopy this _ | OLockAndGetData this | OForget this
  | OSetFrame this _ => [this]
  | OMove this aOther | OAssignMove this aOther => [this; aOther]
  | OEnv _ _ => []
  end.

(** *** A test bench *)

Definition frameA : addr := 1%positive.
Definition frameB : addr := 2%positive.

(** A direct-colour frame whose lock succeeds, image data at 0x1000. *)
Definition direct_frame : imgFrame := ImgFrame true false 0 4096.
(** A paletted frame, palette at 0x2000. *)
Definition paletted_frame : imgFrame := ImgFrame true true 8192 4096.
(** A frame whose lock fails. *)
Definition failing_frame : imgFrame := ImgFrame false false 0 4096.
(** A frame whose lock succeeds and that hands out null. *)
Definition null_frame : imgFrame := ImgFrame true false 0 0.

Definition bench : world := init_world (λ _, direct_frame).

Definition slot1 : loc := 1%positive.
Definition slot2 : loc := 2%positive.

(** The calls of a successful activation of [slot1] on the direct-colour
    frame A. *)
Definition activation_log : list (loc * call) :=
  [(slot1, LockImageData frameA true); (slot1, GetIsPaletted frameA);
   (slot1, GetImageData frameA)].

(** [slot1] holds frame A with an active view. *)
Definition world_active : world :=
  World (λ _, direct_frame) {[ slot1 := Pair (Some frameA) 4096 ]}
        activation_log.

(** [slot1] holds frame A with an active view, [slot2] holds frame B. *)
Definition world_active_two : world :=
  World (λ _, direct_frame)
        (<[slot2 := Pair (Some frameB) 0]> {[ slot1 := Pair (Some frameA) 4096 ]})
        activation_log.

(** [slot1] holds the paletted frame A, view inactive. *)
Definition world_paletted : world :=
  World (λ g, if bool_decide (g = frameA) then paletted_frame else direct_frame)
        {[ slot1 := Pair (Some frameA) 0 ]} [].

(** [world_active] after the destructor of [slot1]. *)
Definition world_released : world :=
  World (λ _, direct_frame) ∅
        (activation_log ++ [(slot1, UnlockImageData frameA)]).

(** [slot1] holds frame A with an active view, and the lock of A now
    fails. *)
Definition world_active_failing : world :=
  World (λ g, if bool_decide (g = frameA) then failing_frame else direct_frame)
        {[ slot1 := Pair (Some frameA) 4096 ]} activation_log.

(** [slot1] after its active view was moved into [slot2]. *)
Definition world_moved_from : world :=
  World (λ _, direct_frame)
        (<[slot1 := Pair None 0]> {[ slot2 := Pair (Some frameA) 4096 ]})
        activation_log.

(** The frames of [world_active_two] as a sequence. *)
Definition sequence_two : FrameSequence := Sequence [slot1; slot2].

Definition frameC : addr := 3%positive.

(** [slot1] holds frame A, whose lock fails or hands out null. *)
Definition world_bound (fr : imgFrame) : world :=
  World (λ g, if bool_decide (g = frameA) then fr else direct_frame)
        {[ slot1 := Pair (Some frameA) 0 ]} [].


(** ** Symbolic execution of the methods *)

Ltac unfold_methods :=
  unfold FrameDataPair_new, FrameDataPair_default, FrameDataPair_copy,
    FrameDataPair_move, FrameDataPair_dtor, assign_copy, assign_move,
    LockAndGetData, Forget, HasFrameData, GetFrameData, GetFrame, SetFrame,
    take_mFrame, set_mFrame, set_mFrameData, deref, MOZ_ASSERT,
    frame_LockImageData, frame_UnlockImageData, frame_GetIsPaletted,
    frame_GetPaletteData, frame_GetImageData, emit, release, construct,
    put_slot, get_slot, live, bind, ret, fail.

Ltac exec_method :=
  unfold_methods; cbn [slots frames log mFrame mFrameData];
  repeat first
    [ rewrite lookup_insert_eq
    | rewrite insert_insert_eq
    | match goal with
      | H : slots _ !! _ = _ |- _ => rewrite H
      | H : ?a ≠ ?b |- context [<[?a := _]> _ !! ?b] =>
          rewrite (lookup_insert_ne _ a b) by exact H
      | H : ?b ≠ ?a |- context [<[?a := _]> _ !! ?b] =>
          rewrite (lookup_insert_ne _ a b) by (intros ->; congruence)
      end
    | progress cbn [slots frames log mFrame mFrameData] ].

Section MethodEquations.
Context (w : world) (this : loc).

Lemma FrameDataPair_new_eq frame :
  slots w !! this = None →
  FrameDataPair_new this frame w
  = Ok ((), World (frames w) (<[this := Pair frame 0]> (slots w)) (log w)).
Proof. intros H. by exec_method. Qed.

Lemma FrameDataPair_default_eq :
  slots w !! this = None →
  FrameDataPair_default this w
  = Ok ((), World (frames w) (<[this := Pair None 0]> (slots w)) (log w)).
Proof. intros H. by exec_method. Qed.

Lemma FrameDataPair_copy_eq aOther o :
  slots w !! this = None → slots w !! aOther = Some o →
  FrameDataPair_copy this aOther w
  = Ok ((), World (frames w) (<[this := Pair (mFrame o) 0]> (slots w)) (log w)).
Proof. intros H Ho. by exec_method. Qed.

Lemma FrameDataPair_move_eq aOther o :
  slots w !! this = None → slots w !! aOther = Some o →
  FrameDataPair_move this aOther w
  = Ok ((), World (frames w)
              (<[aOther := Pair None 0]>
                 (<[this := Pair (mFrame o) (mFrameData o)]> (slots w)))
              (log w)).
Proof.
  intros H Ho.
  assert (aOther ≠ this) as Hne by (intros ->; congruence).
  exec_method.
  rewrite (insert_insert_ne _ this aOther) by done.
  by rewrite insert_insert_eq.
Qed.

Lemma FrameDataPair_dtor_eq p :
  slots w !! this = Some p →
  FrameDataPair_dtor this w
  = if active p then
      match mFrame p with
      | Some f => Ok ((), World (frames w) (delete this (slots w))
                            (log w ++ [(this, UnlockImageData f)]))
      | None => Err NullDereference
      end
    else Ok ((), World (frames w) (delete this (slots w)) (log w)).
Proof.
  intros H. unfold active. exec_method.
  destruct (nonnull (mFrameData p)); [destruct (mFrame p)|]; done.
Qed.

Lemma assign_copy_eq aOther p o :
  aOther ≠ this →
  slots w !! this = Some p → slots w !! aOther = Some o →
  assign_copy this aOther w
  = Ok ((), World (frames w) (<[this := Pair (mFrame o) 0]> (slots w)) (log w)).
Proof.
  intros Hne H Ho. exec_method.
  rewrite bool_decide_true by done. by exec_method.
Qed.

Lemma assign_copy_self p :
  slots w !! this = Some p → assign_copy this this w = Ok ((), w).
Proof.
  intros H. exec_method. by rewrite bool_decide_false by (intros ?; done).
Qed.

Lemma assign_move_eq aOther p o :
  aOther ≠ this →
  slots w !! this = Some p → slots w !! aOther = Some o →
  assign_move this aOther w
  = Ok ((), World (frames w)
              (<[aOther := Pair None 0]>
                 (<[this := Pair (mFrame o) (mFrameData o)]> (slots w)))
              (log w)).
Proof.
  intros Hne H Ho. exec_method.
  rewrite bool_decide_true by done. exec_method.
  rewrite (insert_insert_ne _ this aOther) by done.
  by rewrite insert_insert_eq.
Qed.

Lemma assign_move_self p :
  slots w !! this = Some p → assign_move this this w = Err AssertionFailure.
Proof.
  intros H. exec_method. by rewrite bool_decide_false by (intros ?; done).
Qed.

Lemma LockAndGetData_eq p :
  slots w !! this = Some p →
  LockAndGetData this w
  = match mFrame p with
    | Some f =>
        if lockResult (frames w f) then
          Ok ((), World (frames w)
                    (<[this := Pair (Some f) (selected_data (frames w f))]> (slots w))
                    (log w ++ [(this, LockImageData f true);
                               (this, GetIsPaletted f);
                               (this, selected_call f (frames w f))]))
        else
          Ok ((), World (frames w) (slots w)
                    (log w ++ [(this, LockImageData f false)]))
    | None => Ok ((), w)
    end.
Proof.
  intros H. unfold selected_data, selected_call. exec_method.
  destruct p as [[f|] d]; cbn; [|done].
  destruct (lockResult (frames w f)) eqn:Hl; cbn; [|done].
  destruct (isPaletted (frames w f)); exec_method;
    by rewrite <- !(assoc_L (++)).
Qed.

Lemma Forget_eq p :
  slots w !! this = Some p →
  Forget this w
  = if active p then
      match mFrame p with
      | Some f => Ok (Some f, World (frames w) (<[this := Pair None 0]> (slots w))
                                (log w ++ [(this, UnlockImageData f)]))
      | None => Err NullDereference
      end
    else Ok (mFrame p, World (frames w) (<[this := Pair None 0]> (slots w)) (log w)).
Proof.
  intros H. unfold active. exec_method.
  destruct p as [[f|] d]; cbn; destruct (nonnull d); by exec_method.
Qed.

Lemma SetFrame_eq p frame :
  slots w !! this = Some p →
  SetFrame this frame w
  = if active p then
      match mFrame p with
      | Some f => Ok ((), World (frames w) (<[this := Pair frame 0]> (slots w))
                            (log w ++ [(this, UnlockImageData f)]))
      | None => Err NullDereference
      end
    else Ok ((), World (frames w) (<[this := Pair frame 0]> (slots w)) (log w)).
Proof.
  intros H. unfold active. exec_method.
  destruct (nonnull (mFrameData p)); [destruct (mFrame p)|]; by exec_method.
Qed.

Lemma HasFrameData_eq p :
  slots w !! this = Some p →
  HasFrameData this w
  = if active p then
      match mFrame p with
      | Some _ => Ok (true, w)
      | None => Err AssertionFailure
      end
    else Ok (false, w).
Proof.
  intros H. unfold active. exec_method.
  destruct (nonnull (mFrameData p)) eqn:Hd; [destruct (mFrame p)|]; cbn; done.
Qed.

Lemma GetFrameData_eq p :
  slots w !! this = Some p → GetFrameData this w = Ok (mFrameData p, w).
Proof. intros H. by exec_method. Qed.

Lemma GetFrame_eq p :
  slots w !! this = Some p → GetFrame this w = Ok (mFrame p, w).
Proof. intros H. by exec_method. Qed.

End MethodEquations.

(** ** One step of a program *)

Lemma step_inv o w w' :
  step o w = Ok w' →
  match o with
  | ONew this frame =>
      slots w !! this = None
      ∧ w' = World (frames w) (<[this := Pair frame 0]> (slots w)) (log w)
  | ODefault this =>
      slots w !! this = None
      ∧ w' = World (frames w) (<[this := Pair None 0]> (slots w)) (log w)
  | OCopy this aOther =>
      ∃ q, slots w !! this = None ∧ slots w !! aOther = Some q
        ∧ w' = World (frames w) (<[this := Pair (mFrame q) 0]> (slots w)) (log w)
  | OMove this aOther =>
      ∃ q, aOther ≠ this ∧ slots w !! this = None
        ∧ slots w !! aOther = Some q
        ∧ w' = World (frames w)
                 (<[aOther := Pair None 0]>
                    (<[this := Pair (mFrame q) (mFrameData q)]> (slots w)))
                 (log w)
  | ODestroy this =>
      ∃ p calls, slots w !! this = Some p ∧ unlock_calls this p calls
        ∧ w' = World (frames w) (delete this (slots w)) (log w ++ calls)
  | OAssignCopy this aOther =>
      ∃ p q, slots w !! this = Some p ∧ slots w !! aOther = Some q
        ∧ ((aOther = this ∧ w' = w)
           ∨ (aOther ≠ this
              ∧ w' = World (frames w) (<[this := Pair (mFrame q) 0]> (slots w))
                       (log w)))
  | OAssignMove this aOther =>
      ∃ p q, aOther ≠ this ∧ slots w !! this = Some p
        ∧ slots w !! aOther = Some q
        ∧ w' = World (frames w)
                 (<[aOther := Pair None 0]>
                    (<[this := Pair (mFrame q) (mFrameData q)]> (slots w)))
                 (log w)
  | OLockAndGetData this =>
      ∃ p, slots w !! this = Some p
        ∧ LockAndGetData this w = Ok ((), w')
  | OForget this =>
      ∃ p calls, slots w !! this = Some p ∧ unlock_calls this p calls
        ∧ w' = World (frames w) (<[this := Pair None 0]> (slots w))
                 (log w ++ calls)
  | OSetFrame this frame =>
      ∃ p calls, slots w !! this = Some p ∧ unlock_calls this p calls
        ∧ w' = World (frames w) (<[this := Pair frame 0]> (slots w))
                 (log w ++ calls)
  | OEnv f fr =>
      w' = World (λ g, if bool_decide (g = f) then fr else frames w g)
             (slots w) (log w)
  end.
Proof.
  unfold step. destruct o as [this frame|this|this aOther|this aOther|this
    |this aOther|this aOther|this|this|this frame|f fr]; cbn [exec].
  - destruct (slots w !! this) eqn:H; [by exec_method|].
    rewrite FrameDataPair_new_eq by done. naive_solver.
  - destruct (slots w !! this) eqn:H; [by exec_method|].
    rewrite FrameDataPair_default_eq by done. naive_solver.
  - destruct (slots w !! aOther) as [q|] eqn:Hq; [|by exec_method].
    destruct (slots w !! this) eqn:H; [by exec_method|].
    rewrite (FrameDataPair_copy_eq _ _ _ q) by done. naive_solver.
  - destruct (slots w !! aOther) as [q|] eqn:Hq; [|by exec_method].
    destruct (slots w !! this) eqn:H.
    { destruct (decide (aOther = this)) as [->|Hne]; by exec_method. }
    rewrite (FrameDataPair_move_eq _ _ _ q) by done.
    intros [= <-]. exists q. repeat split; try done. intros ->; congruence.
  - destruct (slots w !! this) as [p|] eqn:H; [|by exec_method].
    rewrite (FrameDataPair_dtor_eq _ _ p) by done. unfold unlock_calls.
    destruct (active p) eqn:Ha; [destruct (mFrame p) as [f|] eqn:Hf|];
      intros [= <-].
    + exists p, [(this, UnlockImageData f)]. naive_solver.
    + exists p, []. rewrite app_nil_r. naive_solver.
  - destruct (slots w !! this) as [p|] eqn:H; [|by exec_method].
    destruct (slots w !! aOther) as [q|] eqn:Hq; [|by exec_method].
    destruct (decide (aOther = this)) as [->|Hne].
    + rewrite (assign_copy_self _ _ p) by done. naive_solver.
    + rewrite (assign_copy_eq _ _ _ p q) by done. naive_solver.
  - destruct (slots w !! this) as [p|] eqn:H; [|by exec_method].
    destruct (slots w !! aOther) as [q|] eqn:Hq; [|by exec_method].
    destruct (decide (aOther = this)) as [->|Hne].
    + by rewrite (assign_move_self _ _ p) by done.
    + rewrite (assign_move_eq _ _ _ p q) by done. naive_solver.
  - destruct (slots w !! this) as [p|] eqn:H; [|by exec_method].
    destruct (LockAndGetData this w) as [[[] w1]|] eqn:Hl; [|done].
    intros [= <-]. eauto.
  - destruct (slots w !! this) as [p|] eqn:H; [|by exec_method].
    unfold bind. rewrite (Forget_eq _ _ p) by done. unfold unlock_calls, ret.
    destruct (active p) eqn:Ha; [destruct (mFrame p) as [f|] eqn:Hf|];
      intros [= <-].
    + exists p, [(this, UnlockImageData f)]. naive_solver.
    + exists p, []. rewrite app_nil_r. naive_solver.
  - destruct (slots w !! this) as [p|] eqn:H; [|by exec_method].
    rewrite (SetFrame_eq _ _ p) by done. unfold unlock_calls.
    destruct (active p) eqn:Ha; [destruct (mFrame p) as [f|] eqn:Hf|];
      intros [= <-].
    + exists p, [(this, UnlockImageData f)]. naive_solver.
    + exists p, []. rewrite app_nil_r. naive_solver.
  - unfold set_frame_answers. by intros [= <-].
Qed.

(** ** Accounting lemmas *)

Lemma count_app {A} (P : A → bool) (l1 l2 : list A) :
  count P (l1 ++ l2) = count P l1 + count P l2.
Proof. unfold count. by rewrite List.filter_app, length_app. Qed.

Lemma owes_insert (m : gmap loc FrameDataPair) a p s :
  owes (<[a := p]> m) s
  = if decide (a = s) then (if active p then 1 else 0) else owes m s.
Proof.
  unfold owes. case_decide as H.
  - subst. by rewrite lookup_insert_eq.
  - by rewrite lookup_insert_ne.
Qed.

Lemma owes_delete (m : gmap loc FrameDataPair) a s :
  owes (delete a m) s = if decide (a = s) then 0 else owes m s.
Proof.
  unfold owes. case_decide as H.
  - subst. by rewrite lookup_delete_eq.
  - by rewrite lookup_delete_ne.
Qed.

Lemma owes_lookup (m : gmap loc FrameDataPair) s p :
  m !! s = Some p → owes m s = if active p then 1 else 0.
Proof. unfold owes. by intros ->. Qed.

Lemma owes_dead (m : gmap loc FrameDataPair) s :
  m !! s = None → owes m s = 0.
Proof. unfold owes. by intros ->. Qed.

Ltac ledger :=
  unfold locks_by, unlocks_by, moved_in, moved_out in *;
  rewrite ?count_app, ?app_nil_r;
  rewrite ?owes_insert, ?owes_delete;
  unfold count in *; cbn [List.filter length fst snd is_lock is_unlock];
  repeat case_decide; repeat case_bool_decide; subst;
  repeat match goal with
    | H : active ?p = _ |- context [active ?p] => rewrite H
    end;
  cbn [List.filter length fst snd is_lock is_unlock andb active nonnull
       mFrameData N.eqb negb];
  try congruence; try lia.

Lemma balance_step o w w' tr :
  disciplined_op o w = true →
  step o w = Ok w' →
  balance w tr →
  balance w' (tr ++ transfer_of o w).
Proof.
  intros Hd Hs Hb s. apply step_inv in Hs. specialize (Hb s).
  destruct o as [this frame|this|this aOther|this aOther|this
    |this aOther|this aOther|this|this|this frame|f fr];
    cbn [transfer_of disciplined_op] in *.
  - destruct Hs as [H ->]. cbn [slots log].
    pose proof (owes_dead _ _ H). ledger.
  - destruct Hs as [H ->]. cbn [slots log].
    pose proof (owes_dead _ _ H). ledger.
  - destruct Hs as (q & H & Hq & ->). cbn [slots log].
    pose proof (owes_dead _ _ H). ledger.
  - destruct Hs as (q & Hne & H & Hq & ->). cbn [slots log]. rewrite Hq.
    pose proof (owes_dead _ _ H). pose proof (owes_lookup _ _ _ Hq).
    destruct q as [qf qd]; cbn [mFrame mFrameData].
    destruct (active (Pair qf qd)) eqn:Ha; ledger.
  - destruct Hs as (p & calls & H & Hc & ->). cbn [slots log].
    pose proof (owes_lookup _ _ _ H).
    destruct Hc as [[Ha ->]|(f & Ha & Hf & ->)]; rewrite Ha in *; ledger.
  - destruct Hs as (p & q & H & Hq & [[-> ->]|[Hne ->]]); cbn [slots log].
    + ledger.
    + pose proof (owes_lookup _ _ _ H).
      rewrite orb_true_iff, bool_decide_eq_true in Hd.
      destruct Hd as [?|Hd]; [done|]. unfold inactive_at in Hd.
      rewrite H in Hd. destruct (active p); [done|]. ledger.
  - destruct Hs as (p & q & Hne & H & Hq & ->). cbn [slots log]. rewrite Hq.
    pose proof (owes_lookup _ _ _ H). pose proof (owes_lookup _ _ _ Hq).
    unfold inactive_at in Hd. rewrite H in Hd.
    destruct (active p); [done|].
    destruct q as [qf qd]; cbn [mFrame mFrameData].
    destruct (active (Pair qf qd)) eqn:Ha; ledger.
  - destruct Hs as (p & H & Hl). rewrite (LockAndGetData_eq _ _ p H) in Hl.
    pose proof (owes_lookup _ _ _ H).
    rewrite andb_true_iff in Hd. destruct Hd as [Hd1 Hd2].
    unfold inactive_at, stores_nonnull in *. rewrite H in *.
    destruct (active p); [done|].
    destruct (mFrame p) as [f|]; [|injection Hl as <-; ledger].
    destruct (lockResult (frames w f)); injection Hl as <-; cbn [slots log].
    + assert (active (Pair (Some f) (selected_data (frames w f))) = true)
        as Ha by exact Hd2.
      unfold selected_call. destruct (isPaletted (frames w f)); ledger.
    + ledger.
  - destruct Hs as (p & calls & H & Hc & ->). cbn [slots log].
    pose proof (owes_lookup _ _ _ H).
    destruct Hc as [[Ha ->]|(f & Ha & Hf & ->)]; rewrite Ha in *; ledger.
  - destruct Hs as (p & calls & H & Hc & ->). cbn [slots log].
    pose proof (owes_lookup _ _ _ H).
    destruct Hc as [[Ha ->]|(f & Ha & Hf & ->)]; rewrite Ha in *; ledger.
  - subst w'. cbn [slots log]. ledger.
Qed.

Lemma balance_run prog :
  ∀ w w' tr,
    disciplined prog w = true →
    run prog w = Ok w' →
    balance w tr →
    balance w' (tr ++ transfers prog w).
Proof.
  induction prog as [|o prog IH]; intros w w' tr Hd Hr Hb; cbn in *.
  - injection Hr as <-. by rewrite app_nil_r.
  - destruct (step o w) as [w1|] eqn:Hs; [|done].
    apply andb_true_iff in Hd as [Hd1 Hd2].
    rewrite (assoc_L (++)). apply IH; [done..|].
    by apply balance_step.
Qed.

Lemma balance_init fr : balance (init_world fr) [].
Proof. intros s. reflexivity. Qed.

(** ** The invariant "view active implies handle non-empty" *)

Lemma slot_ok_inactive f : slot_ok (Pair f 0).
Proof. intros H. done. Qed.

Lemma slot_ok_eta q : slot_ok q → slot_ok (Pair (mFrame q) (mFrameData q)).
Proof. by destruct q. Qed.

Lemma store_ok_insert w s p fr lg :
  store_ok w → slot_ok p →
  store_ok (World fr (<[s := p]> (slots w)) lg).
Proof.
  intros Hw Hp s' p'. cbn. rewrite lookup_insert. case_decide; [|by apply Hw].
  by intros [= <-].
Qed.

Lemma store_ok_delete w s fr lg :
  store_ok w → store_ok (World fr (delete s (slots w)) lg).
Proof.
  intros Hw s' p'. cbn. rewrite lookup_delete. case_decide; [done|by apply Hw].
Qed.

Lemma store_ok_same w fr lg :
  store_ok w → store_ok (World fr (slots w) lg).
Proof. intros Hw s' p'. cbn. apply Hw. Qed.

Lemma step_store_ok o w w' :
  step o w = Ok w' → store_ok w → store_ok w'.
Proof.
  intros Hs Hw. apply step_inv in Hs.
  destruct o as [this frame|this|this aOther|this aOther|this
    |this aOther|this aOther|this|this|this frame|f fr].
  - destruct Hs as [H ->]. apply store_ok_insert, slot_ok_inactive. done.
  - destruct Hs as [H ->]. apply store_ok_insert, slot_ok_inactive. done.
  - destruct Hs as (q & H & Hq & ->).
    apply store_ok_insert, slot_ok_inactive. done.
  - destruct Hs as (q & Hne & H & Hq & ->).
    apply (store_ok_insert (World (frames w) _ (log w)));
      [|apply slot_ok_inactive].
    apply store_ok_insert; [done|]. apply slot_ok_eta. by eapply Hw.
  - destruct Hs as (p & calls & H & Hc & ->). by apply store_ok_delete.
  - destruct Hs as (p & q & H & Hq & [[-> ->]|[Hne ->]]); [done|].
    apply store_ok_insert, slot_ok_inactive. done.
  - destruct Hs as (p & q & Hne & H & Hq & ->).
    apply (store_ok_insert (World (frames w) _ (log w)));
      [|apply slot_ok_inactive].
    apply store_ok_insert; [done|]. apply slot_ok_eta. by eapply Hw.
  - destruct Hs as (p & H & Hl). rewrite (LockAndGetData_eq _ _ p H) in Hl.
    destruct (mFrame p) as [f|]; [|by injection Hl as <-].
    destruct (lockResult (frames w f)); injection Hl as <-.
    + apply store_ok_insert; [done|]. intros _. by eexists.
    + by apply store_ok_same.
  - destruct Hs as (p & calls & H & Hc & ->).
    apply store_ok_insert, slot_ok_inactive. done.
  - destruct Hs as (p & calls & H & Hc & ->).
    apply store_ok_insert, slot_ok_inactive. done.
  - subst w'. intros s p. cbn. apply Hw.
Qed.

Lemma run_store_ok prog :
  ∀ w w', run prog w = Ok w' → store_ok w → store_ok w'.
Proof.
  induction prog as [|o prog IH]; intros w w' Hr Hw; cbn in Hr.
  - by injection Hr as <-.
  - destruct (step o w) as [w1|] eqn:Hs; [|done].
    eapply IH; [done|]. by eapply step_store_ok.
Qed.

Lemma reachable_store_ok w : reachable w → store_ok w.
Proof.
  intros (fr & prog & Hr). eapply run_store_ok; [done|].
  intros s p. cbn. by rewrite lookup_empty.
Qed.

(** In a reachable store an active view comes with its frame. *)
Lemma reachable_active w s p :
  reachable w → slots w !! s = Some p → active p = true →
  ∃ f, mFrame p = Some f.
Proof.
  intros Hr H Ha. apply reachable_store_ok in Hr.
  destruct (Hr s p H) as [f Hf]; [|by exists f].
  unfold active, nonnull in Ha. intros E. rewrite E in Ha. done.
Qed.

Lemma active_false_data p : active p = false ↔ mFrameData p = 0%N.
Proof.
  unfold active, nonnull. rewrite negb_false_iff. apply N.eqb_eq.
Qed.

Lemma active_true_data p : active p = true ↔ mFrameData p ≠ 0%N.
Proof.
  unfold active, nonnull. rewrite negb_true_iff. apply N.eqb_neq.
Qed.

(** ** The ledger of a frame *)

Lemma size_delete_Some (m : gmap loc FrameDataPair) i x :
  m !! i = Some x → size m = S (size (delete i m)).
Proof.
  intros H. rewrite <- (insert_id m i x H) at 1. rewrite <- insert_delete_eq.
  apply map_size_insert_None, lookup_delete_eq.
Qed.

Lemma holders_delete f (m : gmap loc FrameDataPair) s :
  holders f (delete s m) + held f (m !! s) = holders f m.
Proof.
  unfold holders, held. rewrite map_filter_delete.
  destruct (m !! s) as [p|] eqn:H; [destruct (holds f p) eqn:Hh|].
  - rewrite (size_delete_Some (filter _ m) s p); [lia|].
    by apply map_lookup_filter_Some.
  - rewrite delete_id; [lia|]. apply map_lookup_filter_None. right.
    intros x Hx. cbn. congruence.
  - rewrite delete_id; [lia|]. apply map_lookup_filter_None. by left.
Qed.

Lemma holders_insert f (m : gmap loc FrameDataPair) s p :
  holders f (<[s := p]> m) + held f (m !! s)
  = holders f m + held f (Some p).
Proof.
  pose proof (holders_delete f (<[s := p]> m) s) as H1.
  pose proof (holders_delete f m s) as H2.
  rewrite delete_insert_eq, lookup_insert_eq in H1. lia.
Qed.

Lemma held_inactive f frame : held f (Some (Pair frame 0)) = 0.
Proof. unfold held, holds. cbn. by rewrite andb_false_r. Qed.

Lemma held_not_active f p : active p = false → held f (Some p) = 0.
Proof. unfold held, holds. intros ->. by rewrite andb_false_r. Qed.

Lemma held_active f p g :
  mFrame p = Some g → active p = true →
  held f (Some p) = if bool_decide (g = f) then 1 else 0.
Proof.
  unfold held, holds. intros -> ->. rewrite andb_true_r.
  destruct (decide (g = f)) as [->|Hne].
  - by rewrite !bool_decide_true.
  - rewrite !bool_decide_false; [done|done|congruence].
Qed.

Ltac frame_ledger :=
  unfold locks_of, unlocks_of in *;
  rewrite ?count_app, ?app_nil_r;
  unfold count in *; cbn [List.filter length fst snd is_lock_of is_unlock_of];
  repeat case_bool_decide; subst;
  cbn [List.filter length]; try congruence; try lia.

Lemma frame_balance_unlock f w this p calls :
  unlock_calls this p calls →
  locks_of f (log w) = unlocks_of f (log w) + holders f (slots w) →
  slots w !! this = Some p →
  locks_of f (log w ++ calls) + held f (Some p)
  = unlocks_of f (log w ++ calls) + holders f (slots w).
Proof.
  intros [[Ha ->]|(g & Ha & Hg & ->)] Hb H.
  - rewrite (held_not_active _ _ Ha). frame_ledger.
  - rewrite (held_active _ _ g Hg Ha). frame_ledger.
Qed.

Lemma frame_balance_step o w w' :
  disciplined_op o w = true →
  step o w = Ok w' →
  frame_balance w →
  frame_balance w'.
Proof.
  intros Hd Hs Hb f. apply step_inv in Hs. specialize (Hb f).
  destruct o as [this frame|this|this aOther|this aOther|this
    |this aOther|this aOther|this|this|this frame|g fr];
    cbn [disciplined_op] in *.
  - destruct Hs as [H ->]. cbn [slots log].
    pose proof (holders_insert f (slots w) this (Pair frame 0)) as Hi.
    rewrite H, held_inactive in Hi. cbn in Hi. lia.
  - destruct Hs as [H ->]. cbn [slots log].
    pose proof (holders_insert f (slots w) this (Pair None 0)) as Hi.
    rewrite H, held_inactive in Hi. cbn in Hi. lia.
  - destruct Hs as (q & H & Hq & ->). cbn [slots log].
    pose proof (holders_insert f (slots w) this (Pair (mFrame q) 0)) as Hi.
    rewrite H, held_inactive in Hi. cbn in Hi. lia.
  - destruct Hs as (q & Hne & H & Hq & ->). cbn [slots log].
    pose proof (holders_insert f (slots w) this
                  (Pair (mFrame q) (mFrameData q))) as Hi1.
    pose proof (holders_insert f
                  (<[this := Pair (mFrame q) (mFrameData q)]> (slots w))
                  aOther (Pair None 0)) as Hi2.
    rewrite lookup_insert_ne, Hq in Hi2 by done.
    rewrite H, ?held_inactive in *. destruct q. cbn in *. lia.
  - destruct Hs as (p & calls & H & Hc & ->). cbn [slots log].
    pose proof (frame_balance_unlock f w this p calls Hc Hb H).
    pose proof (holders_delete f (slots w) this) as Hi. rewrite H in Hi. lia.
  - destruct Hs as (p & q & H & Hq & [[-> ->]|[Hne ->]]); [done|].
    cbn [slots log].
    rewrite orb_true_iff, bool_decide_eq_true in Hd.
    destruct Hd as [?|Hd]; [done|]. unfold inactive_at in Hd.
    rewrite H, negb_true_iff in Hd.
    pose proof (holders_insert f (slots w) this (Pair (mFrame q) 0)) as Hi.
    rewrite H, held_inactive, (held_not_active _ _ Hd) in Hi. lia.
  - destruct Hs as (p & q & Hne & H & Hq & ->). cbn [slots log].
    unfold inactive_at in Hd. rewrite H, negb_true_iff in Hd.
    pose proof (holders_insert f (slots w) this
                  (Pair (mFrame q) (mFrameData q))) as Hi1.
    pose proof (holders_insert f
                  (<[this := Pair (mFrame q) (mFrameData q)]> (slots w))
                  aOther (Pair None 0)) as Hi2.
    rewrite lookup_insert_ne, Hq in Hi2 by done.
    rewrite H, ?held_inactive, ?(held_not_active _ _ Hd) in *.
    destruct q. cbn in *. lia.
  - destruct Hs as (p & H & Hl). rewrite (LockAndGetData_eq _ _ p H) in Hl.
    rewrite andb_true_iff in Hd. destruct Hd as [Hd1 Hd2].
    unfold inactive_at, stores_nonnull in *.
    rewrite H, ?negb_true_iff in *.
    destruct (mFrame p) as [g|] eqn:Hg; [|by injection Hl as <-].
    destruct (lockResult (frames w g)); injection Hl as <-; cbn [slots log].
    + pose proof (holders_insert f (slots w) this
                    (Pair (Some g) (selected_data (frames w g)))) as Hi.
      rewrite H, (held_not_active _ _ Hd1),
        (held_active f (Pair (Some g) (selected_data (frames w g))) g
           eq_refl Hd2) in Hi.
      unfold selected_call. destruct (isPaletted (frames w g)); frame_ledger.
    + frame_ledger.
  - destruct Hs as (p & calls & H & Hc & ->). cbn [slots log].
    pose proof (frame_balance_unlock f w this p calls Hc Hb H).
    pose proof (holders_insert f (slots w) this (Pair None 0)) as Hi.
    rewrite H, held_inactive in Hi. lia.
  - destruct Hs as (p & calls & H & Hc & ->). cbn [slots log].
    pose proof (frame_balance_unlock f w this p calls Hc Hb H).
    pose proof (holders_insert f (slots w) this (Pair frame 0)) as Hi.
    rewrite H, held_inactive in Hi. lia.
  - by subst w'.
Qed.

(** X12.  Under disciplined use the locks outstanding on a frame are the
    active views on it; once every object is destroyed each frame has
    received as many unlocks as successful locks. *)
Lemma frame_ledger_balanced fr prog :
  ∀ w,
    run prog (init_world fr) = Ok w →
    disciplined prog (init_world fr) = true →
    (∀ f, outstanding f (log w) = Z.of_nat (holders f (slots w)))
    ∧ (slots w = ∅ → ∀ f, locks_of f (log w) = unlocks_of f (log w)).
Proof.
  assert (∀ w0 w, run prog w0 = Ok w → disciplined prog w0 = true →
                  frame_balance w0 → frame_balance w) as Hrun.
  { induction prog as [|o prog IH]; intros w0 w Hr Hd Hb; cbn in *.
    - by injection Hr as <-.
    - destruct (step o w0) as [w1|] eqn:Hs; [|done].
      apply andb_true_iff in Hd as [Hd1 Hd2].
      eapply IH; [done..|]. by eapply frame_balance_step. }
  intros w Hr Hd.
  assert (frame_balance w) as Hb.
  { eapply Hrun; [done..|]. intros f. reflexivity. }
  split.
  - intros f. unfold outstanding. rewrite (Hb f). lia.
  - intros He f. rewrite (Hb f), He. unfold holders.
    rewrite map_filter_empty, map_size_empty. lia.
Qed.

(** ** Activation *)

(** C4.  On an object with a frame whose lock call succeeds, LockAndGetData
    stores the frame's palette pointer when the frame reports paletted at
    that moment and its image pointer otherwise.  The flag is not kept in
    the object: the call itself asks the frame (GetIsPaletted is among the
    calls it issues), and the pointer stored depends on nothing but the
    frame's answers at the time of the call. *)
Theorem activate_view_stores_selected_pointer w s p f :
  slots w !! s = Some p →
  mFrame p = Some f →
  lockResult (frames w f) = true →
  ∃ w',
    LockAndGetData s w = Ok ((), w')
    ∧ GetFrameData s w'
      = Ok ((if isPaletted (frames w f) then paletteData (frames w f)
             else imageData (frames w f)), w')
    ∧ GetFrame s w' = Ok (Some f, w')
    ∧ log w'
      = log w ++ [(s, LockImageData f true); (s, GetIsPaletted f);
                  (s, if isPaletted (frames w f) then GetPaletteData f
                      else GetImageData f)].
Proof.
  intros H Hf Hl. eexists. rewrite (LockAndGetData_eq _ _ p H), Hf, Hl.
  split; [reflexivity|].
  repeat split.
  - erewrite GetFrameData_eq by apply lookup_insert_eq. done.
  - erewrite GetFrame_eq by apply lookup_insert_eq. done.
Qed.

Lemma activate_view_stores_selected_pointer_witness :
  ∃ w',
    LockAndGetData slot1 world_paletted = Ok ((), w')
    ∧ GetFrameData slot1 w' = Ok (8192%N, w').
Proof.
  destruct (activate_view_stores_selected_pointer
              world_paletted slot1 (Pair (Some frameA) 0) frameA
              eq_refl eq_refl eq_refl)
    as (w' & H1 & H2 & _).
  exists w'. split; [exact H1|exact H2].
Defined.

(** The paletted flag is asked again at every activation: when the frame
    changes its answer, a second activation stores the other pointer. *)
Example activation_asks_the_frame_each_time :
  ∃ w1 w2,
    run [ONew slot1 (Some frameA); OLockAndGetData slot1] bench = Ok w1
    ∧ GetFrameData slot1 w1 = Ok (4096%N, w1)
    ∧ run [OEnv frameA paletted_frame; OLockAndGetData slot1] w1 = Ok w2
    ∧ GetFrameData slot1 w2 = Ok (8192%N, w2).
Proof. do 2 eexists. repeat split; reflexivity. Qed.

(** ** Copy and move *)

(** C5.  A copy, made by the copy constructor or by copy assignment to
    another object, holds the source's frame handle and an inactive view,
    whether or not the source's view is active; the source is unchanged and
    no call is issued, so that no frame's count of outstanding locks
    changes.  Assigning an object to itself changes nothing at all. *)
Theorem copy_shares_handle_without_lock w this aOther o :
  slots w !! aOther = Some o →
  (slots w !! this = None →
   ∃ w', FrameDataPair_copy this aOther w = Ok ((), w')
     ∧ slots w' !! this = Some (Pair (mFrame o) 0)
     ∧ HasFrameData this w' = Ok (false, w')
     ∧ slots w' !! aOther = Some o
     ∧ ∀ f, outstanding f (log w') = outstanding f (log w))
  ∧ (aOther ≠ this → is_Some (slots w !! this) →
     ∃ w', assign_copy this aOther w = Ok ((), w')
       ∧ slots w' !! this = Some (Pair (mFrame o) 0)
       ∧ HasFrameData this w' = Ok (false, w')
       ∧ slots w' !! aOther = Some o
       ∧ ∀ f, outstanding f (log w') = outstanding f (log w))
  ∧ assign_copy aOther aOther w = Ok ((), w).
Proof.
  intros Ho. split; [|split].
  - intros H. assert (aOther ≠ this) as Hne by (intros ->; congruence).
    eexists. rewrite (FrameDataPair_copy_eq _ _ _ o H Ho).
    split; [reflexivity|]. cbn [slots log].
    rewrite lookup_insert_eq, lookup_insert_ne by done.
    repeat split; try done.
    erewrite HasFrameData_eq by apply lookup_insert_eq. done.
  - intros Hne [p H].
    eexists. rewrite (assign_copy_eq _ _ _ p o Hne H Ho).
    split; [reflexivity|]. cbn [slots log].
    rewrite lookup_insert_eq, lookup_insert_ne by done.
    repeat split; try done.
    erewrite HasFrameData_eq by apply lookup_insert_eq. done.
  - by eapply assign_copy_self.
Qed.

Lemma copy_shares_handle_without_lock_witness :
  ∃ w',
    assign_copy slot2 slot1 world_active_two = Ok ((), w')
    ∧ slots w' !! slot2 = Some (Pair (Some frameA) 0)
    ∧ slots w' !! slot1 = Some (Pair (Some frameA) 4096)
    ∧ outstanding frameA (log w') = 1%Z.
Proof.
  destruct (copy_shares_handle_without_lock
              world_active_two slot2 slot1 (Pair (Some frameA) 4096) eq_refl)
    as (_ & H & _).
  destruct (H ltac:(done) ltac:(by eexists)) as (w' & H1 & H2 & _ & H3 & H4).
  exists w'. repeat split; done.
Defined.

(** C6.  A move, by the move constructor or by move assignment between two
    distinct objects, gives the destination the source's frame handle and
    the source's view, active or not; it leaves the source with an empty
    handle and an inactive view, and issues no call, so that no frame's
    count of outstanding locks changes. *)
Theorem move_transfers_handle_and_view w this aOther o :
  aOther ≠ this →
  slots w !! aOther = Some o →
  (slots w !! this = None →
   ∃ w', FrameDataPair_move this aOther w = Ok ((), w')
     ∧ slots w' !! this = Some o
     ∧ slots w' !! aOther = Some (Pair None 0)
     ∧ ∀ f, outstanding f (log w') = outstanding f (log w))
  ∧ (is_Some (slots w !! this) →
     ∃ w', assign_move this aOther w = Ok ((), w')
       ∧ slots w' !! this = Some o
       ∧ slots w' !! aOther = Some (Pair None 0)
       ∧ ∀ f, outstanding f (log w') = outstanding f (log w)).
Proof.
  intros Hne Ho. split.
  - intros H. eexists. rewrite (FrameDataPair_move_eq _ _ _ o H Ho).
    split; [reflexivity|]. cbn [slots log].
    rewrite lookup_insert_eq, lookup_insert_ne, lookup_insert_eq by done.
    by destruct o.
  - intros [p H]. eexists. rewrite (assign_move_eq _ _ _ p o Hne H Ho).
    split; [reflexivity|]. cbn [slots log].
    rewrite lookup_insert_eq, lookup_insert_ne, lookup_insert_eq by done.
    by destruct o.
Qed.

Lemma move_transfers_handle_and_view_witness :
  ∃ w',
    FrameDataPair_move slot2 slot1 world_active = Ok ((), w')
    ∧ slots w' !! slot2 = Some (Pair (Some frameA) 4096)
    ∧ slots w' !! slot1 = Some (Pair None 0)
    ∧ outstanding frameA (log w') = 1%Z.
Proof.
  destruct (move_transfers_handle_and_view
              world_active slot2 slot1 (Pair (Some frameA) 4096)
              ltac:(done) eq_refl)
    as (H & _).
  destruct (H eq_refl) as (w' & H1 & H2 & H3 & H4).
  exists w'. repeat split; done.
Defined.

(** ** Release of the lock *)

(** The destructor of an object whose view is active issues exactly one
    call, the unlock of the frame it holds. *)
Lemma dtor_active_unlocks_once w s p f :
  slots w !! s = Some p → mFrame p = Some f → active p = true →
  FrameDataPair_dtor s w
  = Ok ((), World (frames w) (delete s (slots w))
              (log w ++ [(s, UnlockImageData f)])).
Proof. intros H Hf Ha. by rewrite (FrameDataPair_dtor_eq _ _ p H), Ha, Hf. Qed.

(** The destructor of an object whose view is inactive issues no call. *)
Lemma dtor_inactive_silent w s p :
  slots w !! s = Some p → active p = false →
  FrameDataPair_dtor s w
  = Ok ((), World (frames w) (delete s (slots w)) (log w)).
Proof. intros H Ha. by rewrite (FrameDataPair_dtor_eq _ _ p H), Ha. Qed.

(** SetFrame on an object whose view is active issues exactly one call, the
    unlock of the frame it holds, and rebinds the object with an inactive
    view. *)
Lemma SetFrame_active_unlocks_once w s p f frame :
  slots w !! s = Some p → mFrame p = Some f → active p = true →
  SetFrame s frame w
  = Ok ((), World (frames w) (<[s := Pair frame 0]> (slots w))
              (log w ++ [(s, UnlockImageData f)])).
Proof. intros H Hf Ha. by rewrite (SetFrame_eq _ _ p _ H), Ha, Hf. Qed.

(** C8.  SetFrame with the frame the object already holds, on an object
    whose view is active, issues exactly one call, the unlock of that
    frame, and leaves the object bound to the same frame with an inactive
    view. *)
Theorem set_same_frame_cycles_lock w s p f :
  slots w !! s = Some p →
  mFrame p = Some f →
  active p = true →
  ∃ w',
    SetFrame s (Some f) w = Ok ((), w')
    ∧ log w' = log w ++ [(s, UnlockImageData f)]
    ∧ slots w' !! s = Some (Pair (Some f) 0)
    ∧ HasFrameData s w' = Ok (false, w').
Proof.
  intros H Hf Ha. eexists.
  rewrite (SetFrame_active_unlocks_once _ _ p f _ H Hf Ha).
  split; [reflexivity|]. cbn [slots log]. rewrite lookup_insert_eq.
  repeat split.
  erewrite HasFrameData_eq by apply lookup_insert_eq. done.
Qed.

Lemma set_same_frame_cycles_lock_witness :
  ∃ w',
    SetFrame slot1 (Some frameA) world_active = Ok ((), w')
    ∧ log w' = activation_log ++ [(slot1, UnlockImageData frameA)]
    ∧ slots w' !! slot1 = Some (Pair (Some frameA) 0).
Proof.
  destruct (set_same_frame_cycles_lock
              world_active slot1 (Pair (Some frameA) 4096) frameA
              eq_refl eq_refl eq_refl)
    as (w' & H1 & H2 & H3 & _).
  exists w'. repeat split; done.
Defined.

(** C7.  Forget returns the frame handle the object held and leaves the
    object with an empty handle and an inactive view.  The calls it issues
    are: exactly one unlock, of the frame held, when the view was active,
    and none when it was not. *)
Theorem forget_releases_and_empties w s p :
  reachable w →
  slots w !! s = Some p →
  ∃ w' calls,
    Forget s w = Ok (mFrame p, w')
    ∧ slots w' !! s = Some (Pair None 0)
    ∧ log w' = log w ++ calls
    ∧ unlock_calls s p calls
    ∧ (count (λ e, is_unlock e.2) calls = 1 ↔ active p = true).
Proof.
  intros Hr H. rewrite (Forget_eq _ _ p H). unfold unlock_calls.
  destruct (active p) eqn:Ha.
  - destruct (reachable_active w s p Hr H Ha) as [f Hf]. rewrite Hf.
    exists (World (frames w) (<[s := Pair None 0]> (slots w))
                  (log w ++ [(s, UnlockImageData f)])),
           [(s, UnlockImageData f)].
    cbn [slots log]. rewrite lookup_insert_eq.
    repeat split; try done. right. by exists f.
  - exists (World (frames w) (<[s := Pair None 0]> (slots w)) (log w)), [].
    cbn [slots log]. rewrite lookup_insert_eq, app_nil_r.
    repeat split; try done. by left.
Qed.

Lemma reachable_world_active : reachable world_active.
Proof.
  exists (λ _, direct_frame), [ONew slot1 (Some frameA); OLockAndGetData slot1].
  reflexivity.
Qed.

Lemma forget_releases_and_empties_witness :
  ∃ w',
    Forget slot1 world_active = Ok (Some frameA, w')
    ∧ slots w' !! slot1 = Some (Pair None 0)
    ∧ log w' = activation_log ++ [(slot1, UnlockImageData frameA)].
Proof.
  destruct (forget_releases_and_empties
              world_active slot1 (Pair (Some frameA) 4096)
              reachable_world_active eq_refl)
    as (w' & calls & H1 & H2 & H3 & [[Ha _]|(f & _ & Hf & ->)] & _).
  - discriminate Ha.
  - injection Hf as <-. exists w'. repeat split; done.
Defined.

(** C10.  HasFrameData returns true exactly when the stored data pointer is
    not null.  In particular, when the lock call of LockAndGetData succeeds
    and the accessor selected by the paletted flag returns null, the object
    reports no frame data afterwards and its destructor issues no call. *)
Theorem has_view_iff_data_nonnull w s p :
  reachable w →
  slots w !! s = Some p →
  (∃ b, HasFrameData s w = Ok (b, w) ∧ (b = true ↔ mFrameData p ≠ 0%N))
  ∧ (∀ f,
       mFrame p = Some f →
       lockResult (frames w f) = true →
       (if isPaletted (frames w f) then paletteData (frames w f)
        else imageData (frames w f)) = 0%N →
       ∃ w1 w2,
         LockAndGetData s w = Ok ((), w1)
         ∧ HasFrameData s w1 = Ok (false, w1)
         ∧ FrameDataPair_dtor s w1 = Ok ((), w2)
         ∧ log w2 = log w1).
Proof.
  intros Hr H. split.
  - rewrite (HasFrameData_eq _ _ p H).
    destruct (active p) eqn:Ha.
    + destruct (reachable_active w s p Hr H Ha) as [f ->].
      exists true. split; [done|]. by rewrite <- active_true_data.
    + exists false. split; [done|]. apply active_false_data in Ha.
      split; [done|]. intros ?. done.
  - intros f Hf Hl Hnull. do 2 eexists.
    rewrite (LockAndGetData_eq _ _ p H), Hf, Hl. split; [reflexivity|].
    unfold selected_data. rewrite Hnull.
    erewrite HasFrameData_eq by apply lookup_insert_eq.
    erewrite dtor_inactive_silent by (apply lookup_insert_eq || done).
    repeat split.
Qed.

Lemma reachable_world_bound_null : reachable (world_bound null_frame).
Proof.
  exists (λ _, direct_frame), [ONew slot1 (Some frameA); OEnv frameA null_frame].
  reflexivity.
Qed.

Lemma has_view_iff_data_nonnull_witness :
  HasFrameData slot1 (world_bound null_frame)
  = Ok (false, world_bound null_frame)
  ∧ ∃ w1 w2,
      LockAndGetData slot1 (world_bound null_frame) = Ok ((), w1)
      ∧ log w1 = [(slot1, LockImageData frameA true);
                  (slot1, GetIsPaletted frameA);
                  (slot1, GetImageData frameA)]
      ∧ HasFrameData slot1 w1 = Ok (false, w1)
      ∧ FrameDataPair_dtor slot1 w1 = Ok ((), w2)
      ∧ log w2 = log w1.
Proof.
  destruct (has_view_iff_data_nonnull
              (world_bound null_frame) slot1 (Pair (Some frameA) 0)
              reachable_world_bound_null eq_refl)
    as [_ H].
  destruct (H frameA eq_refl eq_refl eq_refl) as (w1 & w2 & H1 & H2 & H3 & H4).
  split; [reflexivity|].
  exists w1, w2. repeat split; try done.
  cbv in H1. by injection H1 as <-.
Defined.

(** ** Failed activation *)

(** C3, as stated, fails on an object whose view is already active: when
    the frame's lock call fails, LockAndGetData keeps the pointer stored by
    the earlier activation, and HasFrameData still answers true. *)
Lemma failed_reactivation_keeps_view :
  ∃ w w',
    run [ONew slot1 (Some frameA); OLockAndGetData slot1;
         OEnv frameA failing_frame] bench = Ok w
    ∧ lockResult (frames w frameA) = false
    ∧ LockAndGetData slot1 w = Ok ((), w')
    ∧ HasFrameData slot1 w' = Ok (true, w').
Proof. do 2 eexists. repeat split; reflexivity. Qed.

(** C3, amended.  On any object, LockAndGetData with an empty handle, or
    with a frame whose lock call fails, returns normally and leaves the
    object as it was: HasFrameData keeps the value it had before the call,
    false when the view was inactive (as it is whenever the handle is
    empty), true when a view was already active.  The call issues no
    unlock (with an empty handle it does nothing at all), and the
    destructor, Forget and SetFrame that follow issue exactly the calls
    they would have issued without the attempt: none when the view was
    inactive. *)
Theorem failed_activation_leaves_slot_unchanged w s p :
  reachable w →
  slots w !! s = Some p →
  (mFrame p = None
   ∨ ∃ f, mFrame p = Some f ∧ lockResult (frames w f) = false) →
  ∃ w' calls,
    LockAndGetData s w = Ok ((), w')
    ∧ slots w' = slots w
    ∧ frames w' = frames w
    ∧ (mFrame p = None → w' = w ∧ active p = false)
    ∧ HasFrameData s w = Ok (active p, w)
    ∧ HasFrameData s w' = Ok (active p, w')
    ∧ (∀ t, unlocks_by t (log w') = unlocks_by t (log w))
    ∧ (∀ f, unlocks_of f (log w') = unlocks_of f (log w))
    ∧ unlock_calls s p calls
    ∧ (active p = false → calls = [])
    ∧ FrameDataPair_dtor s w
      = Ok ((), World (frames w) (delete s (slots w)) (log w ++ calls))
    ∧ FrameDataPair_dtor s w'
      = Ok ((), World (frames w) (delete s (slots w)) (log w' ++ calls))
    ∧ Forget s w
      = Ok (mFrame p, World (frames w) (<[s := Pair None 0]> (slots w))
                        (log w ++ calls))
    ∧ Forget s w'
      = Ok (mFrame p, World (frames w) (<[s := Pair None 0]> (slots w))
                        (log w' ++ calls))
    ∧ ∀ frame,
        SetFrame s frame w
        = Ok ((), World (frames w) (<[s := Pair frame 0]> (slots w))
                    (log w ++ calls))
        ∧ SetFrame s frame w'
          = Ok ((), World (frames w) (<[s := Pair frame 0]> (slots w))
                      (log w' ++ calls)).
Proof.
  intros Hr H Hcase.
  assert (∃ w', LockAndGetData s w = Ok ((), w') ∧ slots w' = slots w
                ∧ frames w' = frames w
                ∧ (mFrame p = None → w' = w)
                ∧ (∀ t, unlocks_by t (log w') = unlocks_by t (log w))
                ∧ (∀ f, unlocks_of f (log w') = unlocks_of f (log w)))
    as (w' & Hl & Hs & Hfr & Hn & Hu & Hv).
  { rewrite (LockAndGetData_eq _ _ p H).
    destruct Hcase as [->|(f & -> & ->)].
    - by exists w.
    - eexists. split; [reflexivity|]. cbn [slots log frames].
      repeat split; try done.
      + intros t. unfold unlocks_by. rewrite count_app. unfold count at 2.
        cbn. rewrite andb_false_r. cbn. lia.
      + intros g. frame_ledger. }
  assert (mFrame p = None → active p = false) as Hempty.
  { intros Hm. destruct (active p) eqn:Ha; [|done].
    destruct (reachable_active w s p Hr H Ha) as [f Hf]. congruence. }
  assert (∃ calls, unlock_calls s p calls
                   ∧ (active p = false → calls = [])
                   ∧ (active p = true → is_Some (mFrame p)))
    as (calls & Hc & Hnil & Hsome).
  { unfold unlock_calls. destruct (active p) eqn:Ha.
    - destruct (reachable_active w s p Hr H Ha) as [f Hf].
      exists [(s, UnlockImageData f)].
      split; [right; by exists f|]. split; [done|]. intros _. by exists f.
    - exists []. split; [by left|]. split; done. }
  exists w', calls. pose proof H as H'. rewrite <- Hs in H'.
  assert (∀ frame,
    SetFrame s frame w
    = Ok ((), World (frames w) (<[s := Pair frame 0]> (slots w))
                (log w ++ calls))
    ∧ SetFrame s frame w'
      = Ok ((), World (frames w) (<[s := Pair frame 0]> (slots w))
                  (log w' ++ calls))) as Hset.
  { intros frame.
    rewrite (SetFrame_eq _ _ p _ H), (SetFrame_eq _ _ p _ H'), Hs, Hfr.
    destruct Hc as [[-> ->]|(f & -> & -> & ->)]; by rewrite ?app_nil_r. }
  refine (conj Hl (conj Hs (conj Hfr (conj _ (conj _ (conj _ (conj Hu
            (conj Hv (conj Hc (conj Hnil (conj _ (conj _ (conj _
            (conj _ Hset))))))))))))));
    [ intros Hm; split; [by apply Hn | by apply Hempty]
    | rewrite (HasFrameData_eq _ _ p H)
    | rewrite (HasFrameData_eq _ _ p H')
    | rewrite (FrameDataPair_dtor_eq _ _ p H)
    | rewrite (FrameDataPair_dtor_eq _ _ p H'), Hs, Hfr
    | rewrite (Forget_eq _ _ p H)
    | rewrite (Forget_eq _ _ p H'), Hs, Hfr ];
    destruct Hc as [[Ha ->]|(f & Ha & Hf & ->)];
    rewrite Ha, ?Hf, ?app_nil_r; done.
Qed.

Lemma reachable_world_active_failing : reachable world_active_failing.
Proof.
  exists (λ _, direct_frame),
    [ONew slot1 (Some frameA); OLockAndGetData slot1;
     OEnv frameA failing_frame].
  vm_compute. reflexivity.
Qed.

Lemma reachable_world_bound_failing : reachable (world_bound failing_frame).
Proof.
  exists (λ _, direct_frame),
    [ONew slot1 (Some frameA); OEnv frameA failing_frame].
  vm_compute. reflexivity.
Qed.

Lemma failed_activation_leaves_slot_unchanged_witness :
  (∃ w',
     LockAndGetData slot1 world_active_failing = Ok ((), w')
     ∧ slots w' = slots world_active_failing
     ∧ HasFrameData slot1 w' = Ok (true, w')
     ∧ ∀ f, unlocks_of f (log w') = unlocks_of f (log world_active_failing))
  ∧ (∃ w',
       LockAndGetData slot1 (world_bound failing_frame) = Ok ((), w')
       ∧ HasFrameData slot1 w' = Ok (false, w')
       ∧ FrameDataPair_dtor slot1 w'
         = Ok ((), World (frames (world_bound failing_frame)) ∅
                     (log w' ++ []))).
Proof.
  split.
  - destruct (failed_activation_leaves_slot_unchanged
                world_active_failing slot1 (Pair (Some frameA) 4096)
                reachable_world_active_failing eq_refl
                (or_intror (ex_intro _ frameA (conj eq_refl eq_refl))))
      as (w' & calls & H1 & H2 & _ & _ & _ & H3 & _ & H4 & _).
    exists w'. repeat split; done.
  - destruct (failed_activation_leaves_slot_unchanged
                (world_bound failing_frame) slot1 (Pair (Some frameA) 0)
                reachable_world_bound_failing eq_refl
                (or_intror (ex_intro _ frameA (conj eq_refl eq_refl))))
      as (w' & calls & H1 & _ & _ & _ & _ & H3 & _ & _ & _ & Hnil & _ & H5 & _).
    rewrite (Hnil eq_refl) in H5.
    exists w'. repeat split; done.
Defined.

(** ** Assignment over an active view *)

(** C1.  The destructor and SetFrame unlock the frame of an active view
    ([dtor_active_unlocks_once], [SetFrame_active_unlocks_once]); the two
    assignment operators do not.  With [slot1] holding frame A and an
    active view, assigning [slot2] (frame B) to it, by copy or by move,
    issues no call: [slot1] ends bound to B with an inactive view, and the
    lock of A is still outstanding after both objects are destroyed. *)
Theorem assignment_over_active_view_leaks_lock :
  run [ONew slot1 (Some frameA); OLockAndGetData slot1;
       ONew slot2 (Some frameB)] bench = Ok world_active_two
  ∧ HasFrameData slot1 world_active_two = Ok (true, world_active_two)
  ∧ outstanding frameA (log world_active_two) = 1%Z
  ∧ (∃ w' w'',
       assign_copy slot1 slot2 world_active_two = Ok ((), w')
       ∧ log w' = log world_active_two
       ∧ slots w' !! slot1 = Some (Pair (Some frameB) 0)
       ∧ run [ODestroy slot1; ODestroy slot2] w' = Ok w''
       ∧ slots w'' = ∅
       ∧ unlocks_of frameA (log w'') = 0
       ∧ outstanding frameA (log w'') = 1%Z)
  ∧ (∃ w' w'',
       assign_move slot1 slot2 world_active_two = Ok ((), w')
       ∧ log w' = log world_active_two
       ∧ slots w' !! slot1 = Some (Pair (Some frameB) 0)
       ∧ run [ODestroy slot1; ODestroy slot2] w' = Ok w''
       ∧ slots w'' = ∅
       ∧ unlocks_of frameA (log w'') = 0
       ∧ outstanding frameA (log w'') = 1%Z).
Proof.
  split; [reflexivity|]. split; [reflexivity|]. split; [reflexivity|].
  split; do 2 eexists; repeat split; reflexivity.
Qed.

(** ** The ledger of an object *)

(** C2, as stated, fails for an object whose active view is moved away: the
    object issued the lock, the destination of the move issues the
    unlock. *)
Lemma moved_from_slot_locks_exceed_unlocks :
  ∃ w,
    run [ONew slot1 (Some frameA); OLockAndGetData slot1;
         OMove slot2 slot1; ODestroy slot1] bench = Ok w
    ∧ slots w !! slot1 = None
    ∧ locks_by slot1 (log w) = 1
    ∧ unlocks_by slot1 (log w) = 0.
Proof. eexists. repeat split; reflexivity. Qed.

(** C2, amended.  Over any program that starts with no object and uses the
    class in a disciplined way, once the object at [s] is destroyed the
    successful locks it issued plus the active views moved into it equal
    the unlocks it issued plus the active views moved out of it. *)
Theorem slot_ledger_balanced fr prog w s :
  run prog (init_world fr) = Ok w →
  disciplined prog (init_world fr) = true →
  slots w !! s = None →
  locks_by s (log w) + moved_in s (transfers prog (init_world fr))
  = unlocks_by s (log w) + moved_out s (transfers prog (init_world fr)).
Proof.
  intros Hr Hd Hs.
  pose proof (balance_run prog _ _ [] Hd Hr (balance_init fr) s) as Hb.
  rewrite (owes_dead _ _ Hs) in Hb. cbn [app] in Hb. lia.
Qed.

Lemma slot_ledger_balanced_witness :
  ∃ w,
    run [ONew slot1 (Some frameA); OLockAndGetData slot1; OMove slot2 slot1;
         ODestroy slot1; ODestroy slot2] bench = Ok w
    ∧ locks_by slot2 (log w) + 1 = unlocks_by slot2 (log w) + 0.
Proof.
  eexists. split; [reflexivity|].
  exact (slot_ledger_balanced (λ _, direct_frame)
           [ONew slot1 (Some frameA); OLockAndGetData slot1; OMove slot2 slot1;
            ODestroy slot1; ODestroy slot2] _ slot2 eq_refl eq_refl eq_refl).
Defined.

(** An object that takes no part in a move of an active view issued as
    many unlocks as successful locks by the time it is destroyed. *)
Corollary unmoved_slot_locks_equal_unlocks fr prog w s :
  run prog (init_world fr) = Ok w →
  disciplined prog (init_world fr) = true →
  slots w !! s = None →
  moved_in s (transfers prog (init_world fr)) = 0 →
  moved_out s (transfers prog (init_world fr)) = 0 →
  locks_by s (log w) = unlocks_by s (log w).
Proof.
  intros Hr Hd Hs Hin Hout.
  pose proof (balance_run prog _ _ [] Hd Hr (balance_init fr) s) as Hb.
  rewrite (owes_dead _ _ Hs) in Hb. cbn [app] in Hb. lia.
Qed.

(** Each condition of disciplined use is needed: without it a lock is
    lost. *)
Example second_activation_loses_a_lock :
  ∃ w,
    run [ONew slot1 (Some frameA); OLockAndGetData slot1;
         OLockAndGetData slot1; ODestroy slot1] bench = Ok w
    ∧ locks_by slot1 (log w) = 2 ∧ unlocks_by slot1 (log w) = 1.
Proof. eexists. repeat split; reflexivity. Qed.

Example null_data_loses_a_lock :
  ∃ w,
    run [ONew slot1 (Some frameA); OEnv frameA null_frame;
         OLockAndGetData slot1; ODestroy slot1] bench = Ok w
    ∧ locks_by slot1 (log w) = 1 ∧ unlocks_by slot1 (log w) = 0.
Proof. eexists. repeat split; reflexivity. Qed.

Example assignment_over_active_view_loses_a_lock :
  ∃ w,
    run [ONew slot1 (Some frameA); OLockAndGetData slot1;
         ONew slot2 (Some frameB); OAssignCopy slot1 slot2;
         ODestroy slot1; ODestroy slot2] bench = Ok w
    ∧ locks_by slot1 (log w) = 1 ∧ unlocks_by slot1 (log w) = 0.
Proof. eexists. repeat split; reflexivity. Qed.

(** ** FrameSequence *)

Lemma fresh_loc_dead w : slots w !! fresh_loc w = None.
Proof. unfold fresh_loc. apply not_elem_of_dom, is_fresh. Qed.

Lemma InsertFrame_eq w seq framenum aFrame :
  framenum ≤ GetNumFrames seq →
  InsertFrame framenum aFrame seq w
  = Ok (Sequence (take framenum (mFrames seq) ++
                  fresh_loc w :: drop framenum (mFrames seq)),
        World (frames w) (<[fresh_loc w := Pair aFrame 0]> (slots w)) (log w)).
Proof.
  intros Hle. unfold InsertFrame. rewrite bool_decide_true by done.
  unfold bind at 1. by rewrite FrameDataPair_new_eq by apply fresh_loc_dead.
Qed.

Lemma InsertFrame_out_of_range w seq framenum aFrame :
  GetNumFrames seq < framenum →
  InsertFrame framenum aFrame seq w = Err Abort.
Proof.
  intros Hlt. unfold InsertFrame. by rewrite bool_decide_false by lia.
Qed.

Lemma RemoveFrame_out_of_range w seq framenum :
  GetNumFrames seq ≤ framenum →
  RemoveFrame framenum seq w = Err Abort.
Proof.
  intros Hle. unfold RemoveFrame. by rewrite lookup_ge_None_2.
Qed.

Lemma insert_middle_lookup (l : list loc) i x :
  i ≤ length l → (take i l ++ x :: drop i l) !! i = Some x.
Proof.
  intros Hle. apply list_lookup_middle. by rewrite length_take_le.
Qed.

Lemma insert_middle_remove (l : list loc) i x :
  i ≤ length l →
  take i (take i l ++ x :: drop i l) ++ drop (S i) (take i l ++ x :: drop i l)
  = l.
Proof.
  intros Hle.
  rewrite take_app_length' by (by rewrite length_take_le).
  rewrite (cons_middle x), (assoc_L (++)).
  rewrite drop_app_length'
    by (rewrite length_app, length_take_le by done; cbn; lia).
  apply take_drop.
Qed.

(** C9.  For an index within [0, size], InsertFrame followed by RemoveFrame
    at the same index both succeed and give back a sequence of the same
    size holding the same frame handle at every position; the sequence, the
    store and the log of calls are those before the insertion. *)
Theorem insert_then_remove_restores w seq i f :
  i ≤ GetNumFrames seq →
  ∃ seq1 w1 seq2 w2,
    InsertFrame i f seq w = Ok (seq1, w1)
    ∧ handle_at w1 seq1 i = Some f
    ∧ RemoveFrame i seq1 w1 = Ok (seq2, w2)
    ∧ GetNumFrames seq2 = GetNumFrames seq
    ∧ (∀ j, handle_at w2 seq2 j = handle_at w seq j)
    ∧ seq2 = seq
    ∧ w2 = w.
Proof.
  intros Hle. unfold GetNumFrames in Hle.
  assert (RemoveFrame i
            (Sequence (take i (mFrames seq) ++
                       fresh_loc w :: drop i (mFrames seq)))
            (World (frames w) (<[fresh_loc w := Pair f 0]> (slots w)) (log w))
          = Ok (seq, w)) as Hrm.
  { unfold RemoveFrame. cbn [mFrames].
    rewrite insert_middle_lookup by done. unfold bind.
    erewrite dtor_inactive_silent by (apply lookup_insert_eq || done).
    cbn [slots frames log]. unfold ret.
    rewrite insert_middle_remove by done.
    rewrite delete_insert_eq, delete_id by apply fresh_loc_dead.
    by destruct seq, w. }
  do 4 eexists. rewrite InsertFrame_eq by done.
  split; [reflexivity|]. split.
  { unfold handle_at. cbn [mFrames slots].
    rewrite insert_middle_lookup by done. cbn.
    by rewrite lookup_insert_eq. }
  split; [exact Hrm|]. done.
Qed.

Lemma insert_then_remove_restores_witness :
  ∃ seq1 w1,
    InsertFrame 1 (Some frameC) sequence_two world_active_two = Ok (seq1, w1)
    ∧ mFrames seq1 = [slot1; 3%positive; slot2]
    ∧ handle_at w1 seq1 1 = Some (Some frameC)
    ∧ RemoveFrame 1 seq1 w1 = Ok (sequence_two, world_active_two).
Proof.
  destruct (insert_then_remove_restores
              world_active_two sequence_two 1 (Some frameC)
              ltac:(cbn; lia))
    as (seq1 & w1 & seq2 & w2 & H1 & H2 & H3 & _ & _ & -> & ->).
  exists seq1, w1. repeat split; try done.
  vm_compute in H1. by injection H1 as <- <-.
Defined.

(** ** Further properties of FrameDataPair *)

(** *** No unlock without a lock *)

Lemma held_le f g d :
  held f (Some (Pair (Some g) d)) ≤ if bool_decide (g = f) then 1 else 0.
Proof.
  unfold held, holds. cbn [mFrame].
  destruct (decide (g = f)) as [->|Hne].
  - rewrite !bool_decide_true by done. destruct (active _); cbn; lia.
  - rewrite (bool_decide_false (Some g = Some f)) by congruence. cbn. lia.
Qed.

Lemma unlock_calls_counts f this p calls (l : list (loc * call)) :
  unlock_calls this p calls →
  locks_of f (l ++ calls) = locks_of f l
  ∧ unlocks_of f (l ++ calls) = unlocks_of f l + held f (Some p).
Proof.
  intros [[Ha ->]|(g & Ha & Hg & ->)].
  - rewrite (held_not_active _ _ Ha). split; frame_ledger.
  - rewrite (held_active _ _ g Hg Ha). split; frame_ledger.
Qed.

Lemma holders_lookup f (m : gmap loc FrameDataPair) s p :
  m !! s = Some p → held f (Some p) ≤ holders f m.
Proof.
  intros H. pose proof (holders_delete f m s) as Hd. rewrite H in Hd. lia.
Qed.

Lemma frame_safe_step o w w' :
  step o w = Ok w' → frame_safe w → frame_safe w'.
Proof.
  intros Hs Hb f. apply step_inv in Hs. specialize (Hb f).
  destruct o as [this frame|this|this aOther|this aOther|this
    |this aOther|this aOther|this|this|this frame|g fr].
  - destruct Hs as [H ->]. cbn [slots log].
    pose proof (holders_insert f (slots w) this (Pair frame 0)) as Hi.
    rewrite H, held_inactive in Hi. cbn in Hi. lia.
  - destruct Hs as [H ->]. cbn [slots log].
    pose proof (holders_insert f (slots w) this (Pair None 0)) as Hi.
    rewrite H, held_inactive in Hi. cbn in Hi. lia.
  - destruct Hs as (q & H & Hq & ->). cbn [slots log].
    pose proof (holders_insert f (slots w) this (Pair (mFrame q) 0)) as Hi.
    rewrite H, held_inactive in Hi. cbn in Hi. lia.
  - destruct Hs as (q & Hne & H & Hq & ->). cbn [slots log].
    pose proof (holders_insert f (slots w) this
                  (Pair (mFrame q) (mFrameData q))) as Hi1.
    pose proof (holders_insert f
                  (<[this := Pair (mFrame q) (mFrameData q)]> (slots w))
                  aOther (Pair None 0)) as Hi2.
    rewrite lookup_insert_ne, Hq in Hi2 by done.
    rewrite H, ?held_inactive in *. destruct q. cbn in *. lia.
  - destruct Hs as (p & calls & H & Hc & ->). cbn [slots log].
    destruct (unlock_calls_counts f this p calls (log w) Hc) as [-> ->].
    pose proof (holders_delete f (slots w) this) as Hi. rewrite H in Hi. lia.
  - destruct Hs as (p & q & H & Hq & [[-> ->]|[Hne ->]]); [done|].
    cbn [slots log].
    pose proof (holders_insert f (slots w) this (Pair (mFrame q) 0)) as Hi.
    rewrite H, held_inactive in Hi. lia.
  - destruct Hs as (p & q & Hne & H & Hq & ->). cbn [slots log].
    pose proof (holders_insert f (slots w) this
                  (Pair (mFrame q) (mFrameData q))) as Hi1.
    pose proof (holders_insert f
                  (<[this := Pair (mFrame q) (mFrameData q)]> (slots w))
                  aOther (Pair None 0)) as Hi2.
    rewrite lookup_insert_ne, Hq in Hi2 by done.
    rewrite H, ?held_inactive in *. destruct q. cbn in *. lia.
  - destruct Hs as (p & H & Hl). rewrite (LockAndGetData_eq _ _ p H) in Hl.
    destruct (mFrame p) as [g|] eqn:Hg; [|by injection Hl as <-].
    destruct (lockResult (frames w g)); injection Hl as <-; cbn [slots log].
    + pose proof (holders_insert f (slots w) this
                    (Pair (Some g) (selected_data (frames w g)))) as Hi.
      pose proof (held_le f g (selected_data (frames w g))) as Hle.
      rewrite H in Hi.
      unfold selected_call. destruct (isPaletted (frames w g)); frame_ledger.
    + frame_ledger.
  - destruct Hs as (p & calls & H & Hc & ->). cbn [slots log].
    destruct (unlock_calls_counts f this p calls (log w) Hc) as [-> ->].
    pose proof (holders_insert f (slots w) this (Pair None 0)) as Hi.
    rewrite H, held_inactive in Hi. lia.
  - destruct Hs as (p & calls & H & Hc & ->). cbn [slots log].
    destruct (unlock_calls_counts f this p calls (log w) Hc) as [-> ->].
    pose proof (holders_insert f (slots w) this (Pair frame 0)) as Hi.
    rewrite H, held_inactive in Hi. lia.
  - by subst w'.
Qed.

Lemma frame_safe_run prog :
  ∀ w w', run prog w = Ok w' → frame_safe w → frame_safe w'.
Proof.
  induction prog as [|o prog IH]; intros w w' Hr Hw; cbn in Hr.
  - by injection Hr as <-.
  - destruct (step o w) as [w1|] eqn:Hs; [|done].
    eapply IH; [done|]. by eapply frame_safe_step.
Qed.

Lemma reachable_frame_safe w : reachable w → frame_safe w.
Proof.
  intros (fr & prog & Hr). eapply frame_safe_run; [done|].
  intros f. cbn. unfold holders. by rewrite map_filter_empty, map_size_empty.
Qed.

(** X10.  Over any program, disciplined or not, that starts with no object,
    no frame ever receives more UnlockImageData calls than successful
    LockImageData calls. *)
Theorem unlocks_never_exceed_locks fr prog w f :
  run prog (init_world fr) = Ok w →
  unlocks_of f (log w) ≤ locks_of f (log w).
Proof.
  intros Hr.
  pose proof (reachable_frame_safe w (ex_intro _ fr (ex_intro _ prog Hr)) f).
  lia.
Qed.

Lemma unlocks_never_exceed_locks_witness :
  ∃ w,
    run [ONew slot1 (Some frameA); OLockAndGetData slot1;
         OLockAndGetData slot1; OSetFrame slot1 (Some frameB);
         OForget slot1; ODestroy slot1] bench = Ok w
    ∧ unlocks_of frameA (log w) ≤ locks_of frameA (log w)
    ∧ unlocks_of frameA (log w) = 1 ∧ locks_of frameA (log w) = 2.
Proof.
  eexists. split; [vm_compute; reflexivity|].
  split; [|split; vm_compute; reflexivity].
  exact (unlocks_never_exceed_locks (λ _, direct_frame)
           [ONew slot1 (Some frameA); OLockAndGetData slot1;
            OLockAndGetData slot1; OSetFrame slot1 (Some frameB);
            OForget slot1; ODestroy slot1] _ frameA
           ltac:(vm_compute; reflexivity)).
Defined.

(** X11.  In every store a program can reach, an object whose view is
    active holds a frame that has at least one lock outstanding: the
    pointer GetFrameData returns is covered by a lock. *)
Theorem active_view_has_outstanding_lock w s p f :
  reachable w →
  slots w !! s = Some p →
  mFrame p = Some f →
  active p = true →
  (1 ≤ outstanding f (log w))%Z.
Proof.
  intros Hr H Hf Ha.
  pose proof (reachable_frame_safe w Hr f) as Hs.
  pose proof (holders_lookup f (slots w) s p H) as Hh.
  rewrite (held_active f p f Hf Ha), bool_decide_true in Hh by done.
  unfold outstanding. lia.
Qed.

Lemma active_view_has_outstanding_lock_witness :
  (1 ≤ outstanding frameA (log world_active))%Z.
Proof.
  exact (active_view_has_outstanding_lock
           world_active slot1 (Pair (Some frameA) 4096) frameA
           reachable_world_active eq_refl eq_refl eq_refl).
Defined.

(** *** The observers and the invariant behind HasFrameData *)

(** X1.  In every store a program can reach, an object whose data pointer
    is not null has a frame: when GetFrameData returns a non-null pointer,
    operator bool answers true, operator-> and GetFrame return a non-null
    frame, operator== holds for that frame and not for nullptr, and
    HasFrameData answers true without failing its assertion. *)
Theorem frame_data_implies_frame w s d :
  reachable w →
  GetFrameData s w = Ok (d, w) →
  d ≠ 0%N →
  operator_bool s w = Ok (true, w)
  ∧ HasFrameData s w = Ok (true, w)
  ∧ ∃ f, operator_arrow s w = Ok (Some f, w)
       ∧ GetFrame s w = Ok (Some f, w)
       ∧ operator_eq s (Some f) w = Ok (true, w)
       ∧ operator_eq s None w = Ok (false, w).
Proof.
  intros Hr Hg Hd.
  destruct (slots w !! s) as [p|] eqn:H;
    [|unfold GetFrameData, bind, get_slot in Hg; by rewrite H in Hg].
  rewrite (GetFrameData_eq _ _ p H) in Hg. injection Hg as <-.
  apply active_true_data in Hd.
  destruct (reachable_active w s p Hr H Hd) as [f Hf].
  rewrite (HasFrameData_eq _ _ p H), Hd, Hf.
  unfold operator_bool, operator_arrow, operator_eq, GetFrame, bind, ret,
    get_slot.
  rewrite H, Hf. split; [done|]. split; [done|].
  exists f. repeat split; try done. by rewrite bool_decide_true.
Qed.

Lemma frame_data_implies_frame_witness :
  GetFrameData slot1 world_active = Ok (4096%N, world_active)
  ∧ operator_bool slot1 world_active = Ok (true, world_active)
  ∧ HasFrameData slot1 world_active = Ok (true, world_active)
  ∧ ∃ f, operator_arrow slot1 world_active = Ok (Some f, world_active)
       ∧ GetFrame slot1 world_active = Ok (Some f, world_active)
       ∧ operator_eq slot1 (Some f) world_active = Ok (true, world_active)
       ∧ operator_eq slot1 None world_active = Ok (false, world_active).
Proof.
  split; [reflexivity|].
  exact (frame_data_implies_frame world_active slot1 4096%N
           reachable_world_active eq_refl ltac:(discriminate)).
Defined.



(** *** How the operations compose *)

(** X4.  Moving an object into a new one and move-assigning it back
    restores the object, handle and view, leaves the intermediate object
    empty, and issues no call. *)
Theorem move_there_and_back w a b p :
  slots w !! a = Some p →
  slots w !! b = None →
  ∃ w1,
    FrameDataPair_move b a w = Ok ((), w1)
    ∧ assign_move a b w1
      = Ok ((), World (frames w) (<[b := Pair None 0]> (slots w)) (log w)).
Proof.
  intros Ha Hb. assert (a ≠ b) as Hne by (intros ->; congruence).
  eexists. rewrite (FrameDataPair_move_eq _ _ _ p Hb Ha).
  split; [reflexivity|].
  erewrite assign_move_eq; [| done | cbn; apply lookup_insert_eq
                             | cbn; rewrite lookup_insert_ne by done;
                               apply lookup_insert_eq ].
  cbn [slots frames log mFrame mFrameData]. do 3 f_equal.
  apply map_eq. intros i. rewrite !lookup_insert.
  repeat case_decide; subst; try done. by destruct p.
Qed.

Lemma move_there_and_back_witness :
  ∃ w1,
    FrameDataPair_move slot2 slot1 world_active = Ok ((), w1)
    ∧ slots w1 !! slot1 = Some (Pair None 0)
    ∧ ∃ w2, assign_move slot1 slot2 w1 = Ok ((), w2)
          ∧ slots w2 !! slot1 = Some (Pair (Some frameA) 4096)
          ∧ slots w2 !! slot2 = Some (Pair None 0)
          ∧ log w2 = log world_active.
Proof.
  destruct (move_there_and_back world_active slot1 slot2 _ eq_refl eq_refl)
    as (w1 & H1 & H2).
  exists w1. split; [exact H1|].
  split; [cbv in H1; by injection H1 as <-|].
  eexists. split; [exact H2|]. repeat split; reflexivity.
Defined.

(** X5.  Copy-constructing an object and destroying the copy gives back
    the world as it was: the copy's destructor issues no call, whatever
    the state of the source. *)
Theorem copy_then_destroy_is_identity w this aOther q :
  slots w !! aOther = Some q →
  slots w !! this = None →
  ∃ w1,
    FrameDataPair_copy this aOther w = Ok ((), w1)
    ∧ FrameDataPair_dtor this w1 = Ok ((), w).
Proof.
  intros Hq H. eexists. rewrite (FrameDataPair_copy_eq _ _ _ q H Hq).
  split; [reflexivity|].
  erewrite dtor_inactive_silent by (apply lookup_insert_eq || done).
  cbn [slots frames log]. rewrite delete_insert_eq, delete_id by done.
  by destruct w.
Qed.

Lemma copy_then_destroy_is_identity_witness :
  ∃ w1,
    FrameDataPair_copy slot2 slot1 world_active = Ok ((), w1)
    ∧ slots w1 !! slot2 = Some (Pair (Some frameA) 0)
    ∧ FrameDataPair_dtor slot2 w1 = Ok ((), world_active).
Proof.
  destruct (copy_then_destroy_is_identity
              world_active slot2 slot1 _ eq_refl eq_refl)
    as (w1 & H1 & H2).
  exists w1. repeat split; try done.
  cbv in H1. by injection H1 as <-.
Defined.

(** X6.  The unlock travels with a move.  When an object is moved into a
    new one and the new one is destroyed, the destructor of the new object
    issues the call the source's destructor would have issued, and the
    source's destructor then issues none: every frame receives the same
    calls as if the source had been destroyed directly, and the same store
    is left. *)
Theorem moved_view_is_released_by_destination w a b p wd :
  slots w !! a = Some p →
  slots w !! b = None →
  FrameDataPair_dtor a w = Ok ((), wd) →
  ∃ w1 w2 w3,
    FrameDataPair_move b a w = Ok ((), w1)
    ∧ FrameDataPair_dtor b w1 = Ok ((), w2)
    ∧ FrameDataPair_dtor a w2 = Ok ((), w3)
    ∧ log w3 = log w2
    ∧ slots w3 = slots wd
    ∧ (∀ f, locks_of f (log w3) = locks_of f (log wd))
    ∧ (∀ f, unlocks_of f (log w3) = unlocks_of f (log wd))
    ∧ unlocks_by a (log w3) = unlocks_by a (log w)
    ∧ unlocks_by b (log w3) + unlocks_by a (log w)
      = unlocks_by b (log w) + unlocks_by a (log wd).
Proof.
  intros Ha Hb Hd. assert (a ≠ b) as Hne by (intros ->; congruence).
  assert (delete a (delete b
            (<[a := Pair None 0]> (<[b := Pair (mFrame p) (mFrameData p)]>
               (slots w)))) = delete a (slots w)) as Hmap.
  { apply map_eq. intros i. rewrite !lookup_delete, !lookup_insert.
    repeat case_decide; subst; done. }
  rewrite (FrameDataPair_dtor_eq _ _ p Ha) in Hd.
  rewrite (FrameDataPair_move_eq _ _ _ p Hb Ha).
  exists (World (frames w)
           (<[a := Pair None 0]>
              (<[b := Pair (mFrame p) (mFrameData p)]> (slots w)))
           (log w)).
  assert (∀ lg,
    FrameDataPair_dtor a
      (World (frames w)
             (delete b (<[a := Pair None 0]>
                (<[b := Pair (mFrame p) (mFrameData p)]> (slots w)))) lg)
    = Ok ((), World (frames w) (delete a (slots w)) lg)) as Hlast.
  { intros lg. erewrite dtor_inactive_silent;
      [| cbn; rewrite lookup_delete_ne by done; apply lookup_insert_eq | done].
    cbn [slots frames log]. by rewrite Hmap. }
  erewrite (FrameDataPair_dtor_eq _ b (Pair (mFrame p) (mFrameData p)))
    by (cbn; rewrite lookup_insert_ne by done; apply lookup_insert_eq).
  change (active (Pair (mFrame p) (mFrameData p))) with (active p).
  cbn [mFrame slots frames log].
  destruct (active p) eqn:Hact; [destruct (mFrame p) as [f|] eqn:Hf; [|done]|];
    injection Hd as <-; do 2 eexists; (split; [reflexivity|]);
    (split; [reflexivity|]); rewrite Hlast; (split; [reflexivity|]);
    cbn [slots log]; (split; [done|]); (split; [done|]).
  - repeat split; intros; ledger; frame_ledger.
  - repeat split; intros; lia.
Qed.

Lemma moved_view_is_released_by_destination_witness :
  ∃ w1 w2 w3,
    FrameDataPair_move slot2 slot1 world_active = Ok ((), w1)
    ∧ FrameDataPair_dtor slot2 w1 = Ok ((), w2)
    ∧ FrameDataPair_dtor slot1 w2 = Ok ((), w3)
    ∧ log w3 = log w2
    ∧ unlocks_of frameA (log w3) = 1
    ∧ unlocks_by slot1 (log w3) = 0.
Proof.
  destruct (moved_view_is_released_by_destination
              world_active slot1 slot2 (Pair (Some frameA) 4096)
              world_released
              eq_refl eq_refl ltac:(vm_compute; reflexivity))
    as (w1 & w2 & w3 & H1 & H2 & H3 & H4 & _ & _ & H5 & H6 & _).
  exists w1, w2, w3. repeat split; try done.
Defined.

(** X7.  Forget and SetFrame(nullptr) leave the same world: the same
    unlock, if any, and an object with an empty handle and an inactive
    view.  They differ only in that Forget hands the frame to the
    caller. *)
Theorem Forget_is_SetFrame_null w s p w' :
  slots w !! s = Some p →
  (Forget s w = Ok (mFrame p, w') ↔ SetFrame s None w = Ok ((), w')).
Proof.
  intros H. rewrite (Forget_eq _ _ p H), (SetFrame_eq _ _ p _ H).
  destruct (active p); [destruct (mFrame p)|]; split; intros Hx;
    try done; by injection Hx as <-.
Qed.

Lemma Forget_is_SetFrame_null_witness :
  ∃ w',
    Forget slot1 world_active = Ok (Some frameA, w')
    ∧ SetFrame slot1 None world_active = Ok ((), w')
    ∧ log w' = activation_log ++ [(slot1, UnlockImageData frameA)].
Proof.
  eexists. split; [reflexivity|]. split; [|reflexivity].
  apply (Forget_is_SetFrame_null world_active slot1
           (Pair (Some frameA) 4096) _ eq_refl).
  reflexivity.
Defined.

(** X8.  A lock is released once.  After Forget or SetFrame has released
    the view, a further SetFrame, Forget or destructor of the object
    issues no call: the release followed by any of them leaves the world
    the second operation alone would have left. *)
Theorem release_then_release_is_single_release w s p w1 :
  slots w !! s = Some p →
  (Forget s w = Ok (mFrame p, w1) ∨ ∃ frame, SetFrame s frame w = Ok ((), w1)) →
  FrameDataPair_dtor s w1 = FrameDataPair_dtor s w
  ∧ (∀ frame, SetFrame s frame w1 = SetFrame s frame w)
  ∧ (Forget s w = Ok (mFrame p, w1) → Forget s w1 = Ok (None, w1)).
Proof.
  intros H Hrel.
  assert (Forget s w = Ok (mFrame p, w1) → Forget s w1 = Ok (None, w1))
    as Hagain.
  { intros Hf. rewrite (Forget_eq _ _ p H) in Hf.
    destruct (active p); [destruct (mFrame p)|]; [| done |];
      injection Hf as <-;
      (erewrite (Forget_eq _ s (Pair None 0)) by apply lookup_insert_eq);
      cbn [slots frames log active mFrameData mFrame nonnull N.eqb negb];
      by rewrite insert_insert_eq. }
  assert (∃ frame calls,
            (active p = true → is_Some (mFrame p))
            ∧ unlock_calls s p calls
            ∧ w1 = World (frames w) (<[s := Pair frame 0]> (slots w))
                     (log w ++ calls)) as (fr0 & calls & Hsome & Hc & ->).
  { destruct Hrel as [Hf|[frame Hf]].
    - rewrite (Forget_eq _ _ p H) in Hf. exists None. unfold unlock_calls.
      destruct (active p); [destruct (mFrame p) as [f|] eqn:Hm; [|done]|];
        injection Hf as <-.
      + exists [(s, UnlockImageData f)]. naive_solver.
      + exists []. rewrite app_nil_r. naive_solver.
    - rewrite (SetFrame_eq _ _ p _ H) in Hf. exists frame. unfold unlock_calls.
      destruct (active p); [destruct (mFrame p) as [f|] eqn:Hm; [|done]|];
        injection Hf as <-.
      + exists [(s, UnlockImageData f)]. naive_solver.
      + exists []. rewrite app_nil_r. naive_solver. }
  split; [|split].
  - erewrite dtor_inactive_silent by (apply lookup_insert_eq || done).
    rewrite (FrameDataPair_dtor_eq _ _ p H). cbn [slots frames log].
    rewrite delete_insert_eq.
    destruct Hc as [[-> ->]|(f & -> & -> & ->)]; by rewrite ?app_nil_r.
  - intros frame.
    erewrite (SetFrame_eq _ s (Pair fr0 0)) by apply lookup_insert_eq.
    rewrite (SetFrame_eq _ _ p _ H). cbn [slots frames log active mFrameData].
    rewrite insert_insert_eq.
    destruct Hc as [[-> ->]|(f & -> & -> & ->)]; by rewrite ?app_nil_r.
  - exact Hagain.
Qed.

Lemma release_then_release_is_single_release_witness :
  ∃ w1,
    Forget slot1 world_active = Ok (Some frameA, w1)
    ∧ FrameDataPair_dtor slot1 w1 = FrameDataPair_dtor slot1 world_active
    ∧ Forget slot1 w1 = Ok (None, w1)
    ∧ unlocks_of frameA (log w1) = 1.
Proof.
  eexists. split; [reflexivity|].
  destruct (release_then_release_is_single_release
              world_active slot1 (Pair (Some frameA) 4096) _ eq_refl
              (or_introl eq_refl))
    as (H1 & _ & H3).
  split; [exact H1|]. split; [exact (H3 eq_refl)|reflexivity].
Defined.

(** *** What the destructor releases *)

(** X9.  The destructor releases at most the last activation.  When
    LockAndGetData succeeds in locking frame [f] and the object is then
    destroyed, [f] has received one more lock, and one more unlock exactly
    when the pointer stored was not null; this does not depend on whether
    the view was active before, so that an unlock owed for an earlier
    activation is never issued.  No other frame receives a lock or an
    unlock. *)
Theorem destructor_releases_last_activation_only w s p f :
  slots w !! s = Some p →
  mFrame p = Some f →
  lockResult (frames w f) = true →
  ∃ w1 w2,
    LockAndGetData s w = Ok ((), w1)
    ∧ FrameDataPair_dtor s w1 = Ok ((), w2)
    ∧ slots w2 = delete s (slots w)
    ∧ locks_of f (log w2) = locks_of f (log w) + 1
    ∧ unlocks_of f (log w2)
      = unlocks_of f (log w)
        + (if nonnull (selected_data (frames w f)) then 1 else 0)
    ∧ (∀ g, g ≠ f →
         locks_of g (log w2) = locks_of g (log w)
         ∧ unlocks_of g (log w2) = unlocks_of g (log w)).
Proof.
  intros H Hf Hl.
  rewrite (LockAndGetData_eq _ _ p H), Hf, Hl.
  eexists. assert (∀ lg,
    FrameDataPair_dtor s
      (World (frames w)
             (<[s := Pair (Some f) (selected_data (frames w f))]> (slots w)) lg)
    = Ok ((), World (frames w) (delete s (slots w))
                (lg ++ if nonnull (selected_data (frames w f))
                       then [(s, UnlockImageData f)] else []))) as Hd.
  { intros lg. erewrite FrameDataPair_dtor_eq by apply lookup_insert_eq.
    unfold active. cbn [mFrame mFrameData slots frames log].
    rewrite delete_insert_eq.
    destruct (nonnull (selected_data (frames w f))); by rewrite ?app_nil_r. }
  eexists. split; [reflexivity|]. rewrite Hd. split; [reflexivity|].
  cbn [slots log]. split; [done|]. unfold selected_call.
  destruct (nonnull (selected_data (frames w f)));
    destruct (isPaletted (frames w f));
    repeat split; intros; frame_ledger.
Qed.

Lemma destructor_releases_last_activation_only_witness :
  ∃ w1 w2,
    LockAndGetData slot1 world_active = Ok ((), w1)
    ∧ FrameDataPair_dtor slot1 w1 = Ok ((), w2)
    ∧ locks_of frameA (log w2) = 2
    ∧ unlocks_of frameA (log w2) = 1.
Proof.
  destruct (destructor_releases_last_activation_only
              world_active slot1 (Pair (Some frameA) 4096) frameA
              eq_refl eq_refl eq_refl)
    as (w1 & w2 & H1 & H2 & _ & H3 & H4 & _).
  exists w1, w2. repeat split; done.
Defined.

(** *** Locality *)

(** X13.  An operation writes no object but [this] and, for a move, its
    source: every other object of the store, the source of a copy among
    them, is left as it was, and no object is created or destroyed but
    [this]. *)
Theorem step_leaves_other_objects w w' o s :
  step o w = Ok w' →
  s ∉ touched o →
  slots w' !! s = slots w !! s.
Proof.
  intros Hs Hn. apply step_inv in Hs.
  destruct o as [this frame|this|this aOther|this aOther|this
    |this aOther|this aOther|this|this|this frame|g fr]; cbn [touched] in Hn.
  - destruct Hs as [H ->]. cbn. by rewrite lookup_insert_ne by set_solver.
  - destruct Hs as [H ->]. cbn. by rewrite lookup_insert_ne by set_solver.
  - destruct Hs as (q & H & Hq & ->). cbn.
    by rewrite lookup_insert_ne by set_solver.
  - destruct Hs as (q & Hne & H & Hq & ->). cbn.
    by rewrite !lookup_insert_ne by set_solver.
  - destruct Hs as (p & calls & H & Hc & ->). cbn.
    by rewrite lookup_delete_ne by set_solver.
  - destruct Hs as (p & q & H & Hq & [[-> ->]|[Hne ->]]); [done|]. cbn.
    by rewrite lookup_insert_ne by set_solver.
  - destruct Hs as (p & q & Hne & H & Hq & ->). cbn.
    by rewrite !lookup_insert_ne by set_solver.
  - destruct Hs as (p & H & Hl). rewrite (LockAndGetData_eq _ _ p H) in Hl.
    destruct (mFrame p) as [f|]; [|by injection Hl as <-].
    destruct (lockResult (frames w f)); injection Hl as <-; cbn; [|done].
    by rewrite lookup_insert_ne by set_solver.
  - destruct Hs as (p & calls & H & Hc & ->). cbn.
    by rewrite lookup_insert_ne by set_solver.
  - destruct Hs as (p & calls & H & Hc & ->). cbn.
    by rewrite lookup_insert_ne by set_solver.
  - by subst w'.
Qed.

Lemma step_leaves_other_objects_witness :
  ∃ w',
    step (OAssignCopy slot2 slot1) world_active_two = Ok w'
    ∧ slots w' !! slot2 = Some (Pair (Some frameA) 0)
    ∧ slots w' !! slot1 = slots world_active_two !! slot1.
Proof.
  eexists. split; [reflexivity|]. split; [reflexivity|].
  apply (step_leaves_other_objects world_active_two _
           (OAssignCopy slot2 slot1) slot1 eq_refl).
  cbn. rewrite list_elem_of_singleton. discriminate.
Defined.

Lemma frame_ledger_balanced_witness :
  ∃ w,
    run [ONew slot1 (Some frameA); OLockAndGetData slot1; OCopy slot2 slot1;
         OMove 3%positive slot1; ODestroy slot1; ODestroy slot2] bench = Ok w
    ∧ outstanding frameA (log w) = 1%Z
    ∧ holders frameA (slots w) = 1
    ∧ slots w !! 3%positive = Some (Pair (Some frameA) 4096).
Proof.
  eexists. split; [vm_compute; reflexivity|].
  destruct (frame_ledger_balanced (λ _, direct_frame)
              [ONew slot1 (Some frameA); OLockAndGetData slot1;
               OCopy slot2 slot1; OMove 3%positive slot1; ODestroy slot1;
               ODestroy slot2] _
              ltac:(vm_compute; reflexivity) ltac:(vm_compute; reflexivity))
    as [H _].
  split; [vm_compute; reflexivity|]. split; [|vm_compute; reflexivity].
  apply Nat2Z.inj. rewrite <- (H frameA). vm_compute. reflexivity.
Defined.

(** X14.  In every store a program can reach, the destructor and SetFrame
    of an object issue the same calls: exactly one, the unlock of the
    frame held, when the view is active, and none when it is not; the
    destructor then ends the object and SetFrame leaves it bound to the
    new frame with an inactive view. *)
Theorem destructor_and_SetFrame_unlock_once w s p :
  reachable w →
  slots w !! s = Some p →
  ∃ calls,
    unlock_calls s p calls
    ∧ (count (λ e, is_unlock e.2) calls = if active p then 1 else 0)
    ∧ FrameDataPair_dtor s w
      = Ok ((), World (frames w) (delete s (slots w)) (log w ++ calls))
    ∧ ∀ frame,
        SetFrame s frame w
        = Ok ((), World (frames w) (<[s := Pair frame 0]> (slots w))
                    (log w ++ calls)).
Proof.
  intros Hr H. unfold unlock_calls.
  rewrite (FrameDataPair_dtor_eq _ _ p H).
  destruct (active p) eqn:Ha.
  - destruct (reachable_active w s p Hr H Ha) as [f Hf]. rewrite Hf.
    exists [(s, UnlockImageData f)]. repeat split; try done.
    + right. by exists f.
    + intros frame. by rewrite (SetFrame_eq _ _ p _ H), Ha, Hf.
  - exists []. rewrite app_nil_r. repeat split; try done.
    + by left.
    + intros frame. by rewrite (SetFrame_eq _ _ p _ H), Ha.
Qed.

Lemma destructor_and_SetFrame_unlock_once_witness :
  FrameDataPair_dtor slot1 world_active
  = Ok ((), World (λ _, direct_frame) ∅
              (activation_log ++ [(slot1, UnlockImageData frameA)]))
  ∧ SetFrame slot1 (Some frameB) world_active
    = Ok ((), World (λ _, direct_frame) {[ slot1 := Pair (Some frameB) 0 ]}
                (activation_log ++ [(slot1, UnlockImageData frameA)])).
Proof.
  destruct (destructor_and_SetFrame_unlock_once
              world_active slot1 (Pair (Some frameA) 4096)
              reachable_world_active eq_refl)
    as (calls & [[Ha _]|(f & _ & Hf & ->)] & _ & H1 & H2).
  - discriminate Ha.
  - injection Hf as <-. split; [exact H1 | exact (H2 (Some frameB))].
Defined.

(** *** The empty object *)

(** X15.  An object with no frame and no data, as the default constructor
    and a move leave it, is inert: LockAndGetData, Forget and
    SetFrame(nullptr) return with the world unchanged, Forget hands out
    nullptr, the observers answer false and null, and the destructor issues
    no call. *)
Theorem empty_object_is_inert w s :
  slots w !! s = Some (Pair None 0) →
  LockAndGetData s w = Ok ((), w)
  ∧ Forget s w = Ok (None, w)
  ∧ SetFrame s None w = Ok ((), w)
  ∧ HasFrameData s w = Ok (false, w)
  ∧ GetFrameData s w = Ok (0%N, w)
  ∧ operator_bool s w = Ok (false, w)
  ∧ operator_eq s None w = Ok (true, w)
  ∧ FrameDataPair_dtor s w
    = Ok ((), World (frames w) (delete s (slots w)) (log w)).
Proof.
  intros H.
  rewrite (LockAndGetData_eq _ _ _ H), (Forget_eq _ _ _ H),
    (SetFrame_eq _ _ _ _ H), (HasFrameData_eq _ _ _ H),
    (GetFrameData_eq _ _ _ H), (FrameDataPair_dtor_eq _ _ _ H).
  unfold operator_bool, operator_eq, bind, ret, get_slot. rewrite H.
  cbn. rewrite (insert_id _ _ _ H). by destruct w.
Qed.

Lemma empty_object_is_inert_witness :
  run [ONew slot1 (Some frameA); OLockAndGetData slot1; OMove slot2 slot1]
      bench = Ok world_moved_from
  ∧ LockAndGetData slot1 world_moved_from = Ok ((), world_moved_from)
  ∧ Forget slot1 world_moved_from = Ok (None, world_moved_from)
  ∧ operator_bool slot1 world_moved_from = Ok (false, world_moved_from).
Proof.
  split; [vm_compute; reflexivity|].
  destruct (empty_object_is_inert world_moved_from slot1 eq_refl)
    as (H1 & H2 & _ & _ & _ & H3 & _).
  repeat split; done.
Defined.
